(** * The node manager of [app/node/__init__.py]

    A shallow embedding of [NodeManager]: the registry [self._nodes] of
    node handles and the broadcast of user changes to every handle.

    The manager is asynchronous Python.  Every method body runs under the
    manager's reader or writer lock, and the writers ([update_node],
    [remove_node]) exclude every other method, so the embedding runs one
    method at a time: a method is a function from the state before the call
    to its outcome (a value or a raised exception) and the state after.

    What the manager does to the outside (calls on node handles, on the
    serializers, on the logger) and to its own dictionary is recorded, in
    program order, in a trace kept in the state.  What the calls on a handle
    answer is not part of this repository: it is given by an instance of
    the class [Bridge] below.

    An exception is an instance of Python's [Exception], which a clause
    [except Exception] handles, or an instance of [BaseException] that is
    not one of [Exception], such as [asyncio.CancelledError], which that
    clause lets through. *)

From Stdlib Require Import ZArith QArith List String Bool Lia.
Import ListNotations.

Local Close Scope Q_scope.
Local Open Scope string_scope.
Local Open Scope list_scope.

(** ** Data of the collaborators *)

(** [PasarGuardNodeBridge.Health]. *)
Inductive Health : Type :=
| NOT_CONNECTED
| HEALTHY
| BROKEN
| INVALID.

Definition Health_eqb (a b : Health) : bool :=
  match a, b with
  | NOT_CONNECTED, NOT_CONNECTED => true
  | HEALTHY, HEALTHY => true
  | BROKEN, BROKEN => true
  | INVALID, INVALID => true
  | _, _ => false
  end.

(** [PasarGuardNodeBridge.NodeType]. *)
Inductive NodeType : Type :=
| NodeType_rest
| NodeType_grpc.

(** Modelled from the spec: [app.db.models.NodeConnectionType] is not among
    the sources.  The spec gives the connection kind as the enumeration
    REST, RPC.  [type_map] is keyed by its members [rest] and [grpc]; the
    third constructor stands for any value of [node.connection_type] that is
    not a key of [type_map]. *)
Inductive NodeConnectionType : Type :=
| NodeConnectionType_rest
| NodeConnectionType_grpc
| NodeConnectionType_other (tag : string).

(** The columns of [app.db.models.Node] that the manager reads.
    [usage_coefficient] is a float that is only passed on. *)
Record Node : Type := mkNode {
  node_id : Z;
  connection_type : NodeConnectionType;
  node_address : string;
  node_port : Z;
  node_server_ca : string;
  node_api_key : string;
  node_name : string;
  node_max_logs : Z;
  usage_coefficient : Q
}.

(** A handle, [PasarGuardNode].  It is a Python object: [ref] is its
    identity, the other fields are the arguments [create_node] received
    (the logger, always [self.logger], is left out). *)
Record PasarGuardNode : Type := mkHandle {
  ref : nat;
  connection : NodeType;
  address : string;
  port : Z;
  server_ca : string;
  api_key : string;
  name : string;
  max_logs : Z;
  extra_id : Z;
  extra_usage_coefficient : Q
}.

(** Exceptions.  [KeyError] and [Exception] are instances of [Exception];
    [BaseException] stands for an instance of [BaseException] that is not
    an instance of [Exception]: [asyncio.CancelledError],
    [KeyboardInterrupt], [SystemExit]. *)
Inductive exn : Type :=
| KeyError_type_map (k : NodeConnectionType)
| KeyError_nodes (id : Z)
| Exception (msg : string)
| BaseException (msg : string).

(** [isinstance(e, Exception)], the test of [except Exception]. *)
Definition isinstance_Exception (e : exn) : bool :=
  match e with
  | BaseException _ => false
  | _ => true
  end.

Inductive result (A : Type) : Type :=
| Ok (a : A)
| Raise (e : exn).

Arguments Ok {A} a.
Arguments Raise {A} e.

(** ** The dictionary [self._nodes]

    A Python [dict] keeps its keys in insertion order, and the broadcast
    and the health scans iterate in that order: the dictionary is a list of
    (key, value) pairs with the operations the manager uses. *)
Module Dict.

Definition t : Type := list (Z * PasarGuardNode).

(** [d.get(k, None)] *)
Fixpoint get (d : t) (k : Z) : option PasarGuardNode :=
  match d with
  | [] => None
  | (k', v) :: rest => if Z.eqb k' k then Some v else get rest k
  end.

(** the dictionary [del d[k]] leaves, for a key that is present *)
Fixpoint remove (d : t) (k : Z) : t :=
  match d with
  | [] => []
  | (k', v) :: rest => if Z.eqb k' k then rest else (k', v) :: remove rest k
  end.

(** [del d[k]]: [None] stands for the KeyError of an absent key *)
Definition delitem (d : t) (k : Z) : option t :=
  match get d k with
  | Some _ => Some (remove d k)
  | None => None
  end.

(** [d[k] = v]: a present key keeps its place, a new key goes last *)
Fixpoint setitem (d : t) (k : Z) (v : PasarGuardNode) : t :=
  match d with
  | [] => [(k, v)]
  | (k', v') :: rest =>
      if Z.eqb k' k then (k', v) :: rest else (k', v') :: setitem rest k v
  end.

(** [d.items()] and [d.values()] *)
Definition items (d : t) : list (Z * PasarGuardNode) := d.
Definition values (d : t) : list PasarGuardNode := map snd d.
Definition keys (d : t) : list Z := map fst d.

(** the entries stored under [k] *)
Definition entries (d : t) (k : Z) : list (Z * PasarGuardNode) :=
  filter (fun kv => Z.eqb (fst kv) k) d.

End Dict.

(** ** The collaborators *)

(** The user side: [app.models.user.UserResponse], [app.db.models.User]
    and the serializers of [app.node.user].  The spec gives the serializers
    as pure transforms.  [inbounds_default] is the default value of the
    fourth parameter of [serialize_user_for_node], which [remove_user]
    leaves out. *)
Class UserSide : Type := {
  User : Type;
  ProxySettings : Type;
  SettingsDict : Type;
  ProtoUser : Type;
  ProtoUsers : Type;
  proxy_settings_dict : ProxySettings -> SettingsDict;
  serialize_users_for_node : list User -> ProtoUsers;
  serialize_user_for_node :
    Z -> string -> SettingsDict -> option (list string) -> ProtoUser;
  inbounds_default : option (list string)
}.

Record UserResponse {U : UserSide} : Type := mkUser {
  user_id : Z;
  username : string;
  proxy_settings : ProxySettings
}.

Arguments mkUser {U} user_id username proxy_settings.

(** What the manager does, in program order. *)
Inductive event {U : UserSide} : Type :=
| EvSetHealth (n : PasarGuardNode) (h : Health)
| EvStop (n : PasarGuardNode)
| EvGetHealth (n : PasarGuardNode)
| EvUpdateUsers (n : PasarGuardNode) (p : ProtoUsers)
| EvUpdateUser (n : PasarGuardNode) (p : ProtoUser)
| EvCreateNode (n : PasarGuardNode)
| EvSerializeUsers (users : list User)
| EvSerializeUser (id : Z) (uname : string) (settings : SettingsDict)
    (inbounds : option (list string))
| EvLogInfo (msg : string)
| EvDelItem (id : Z)
| EvSetItem (id : Z) (n : PasarGuardNode).

(** The transport behind the handles: what each call on a handle answers.
    [None] is a call that returns, [Some e] one that raises [e].  An answer
    depends on the handle and on the arguments: within one call of a method
    of the manager no handle is asked the same thing twice, and a handle
    that has been retired is not asked anything again.  The health a handle
    reports is the transport's own; the manager never reads back the health
    it has set. *)
Class Bridge {U : UserSide} : Type := {
  node_set_health : PasarGuardNode -> Health -> option exn;
  node_stop : PasarGuardNode -> option exn;
  node_get_health : PasarGuardNode -> result Health;
  node_update_users : PasarGuardNode -> ProtoUsers -> option exn;
  node_update_user : PasarGuardNode -> ProtoUser -> option exn
}.

(** ** State and effects *)

Section Manager.

Context {U : UserSide} {B : Bridge}.

(** The state: the manager's dictionary, the next object identity the
    runtime hands out, and the trace. *)
Record World : Type := mkWorld {
  _nodes : Dict.t;
  next_ref : nat;
  trace : list event
}.

Definition M (A : Type) : Type := World -> result A * World.

Definition ret {A} (a : A) : M A := fun w => (Ok a, w).

Definition raise {A} (e : exn) : M A := fun w => (Raise e, w).

Definition bind {A C} (m : M A) (k : A -> M C) : M C :=
  fun w =>
    match m w with
    | (Ok a, w1) => k a w1
    | (Raise e, w1) => (Raise e, w1)
    end.

Notation "x <- m ;; k" := (bind m (fun x => k))
  (at level 61, m at next level, right associativity).
Notation "m ;; k" := (bind m (fun _ => k))
  (at level 61, right associativity).

(** [try: body  except Exception: pass  finally: fin].  The handler takes
    the instances of [Exception]; any other exception is raised again once
    [fin] has run, unless [fin] raises, and then what [fin] raised is
    raised. *)
Definition try_except_pass_finally (body fin : M unit) : M unit :=
  fun w =>
    match body w with
    | (Ok _, w1) => fin w1
    | (Raise e, w1) =>
        if isinstance_Exception e then fin w1
        else
          match fin w1 with
          | (Ok _, w2) => (Raise e, w2)
          | (Raise e', w2) => (Raise e', w2)
          end
    end.

(** [for x in xs: body(x)] *)
Fixpoint for_each {A} (xs : list A) (body : A -> M unit) : M unit :=
  match xs with
  | [] => ret tt
  | x :: rest => body x ;; for_each rest body
  end.

Definition emit (ev : event) : M unit :=
  fun w => (Ok tt, mkWorld (_nodes w) (next_ref w) (trace w ++ [ev])).

Definition of_outcome (o : option exn) : M unit :=
  match o with
  | None => ret tt
  | Some e => raise e
  end.

Definition of_result {A} (r : result A) : M A := fun w => (r, w).

(** *** Calls on a handle *)

Definition set_health (n : PasarGuardNode) (h : Health) : M unit :=
  emit (EvSetHealth n h) ;; of_outcome (node_set_health n h).

Definition stop (n : PasarGuardNode) : M unit :=
  emit (EvStop n) ;; of_outcome (node_stop n).

Definition get_health (n : PasarGuardNode) : M Health :=
  emit (EvGetHealth n) ;; of_result (node_get_health n).

Definition handle_update_users (n : PasarGuardNode) (p : ProtoUsers)
  : M unit :=
  emit (EvUpdateUsers n p) ;; of_outcome (node_update_users n p).

Definition handle_update_user (n : PasarGuardNode) (p : ProtoUser)
  : M unit :=
  emit (EvUpdateUser n p) ;; of_outcome (node_update_user n p).

(** Modelled from the spec: [PasarGuardNodeBridge.create_node] is not
    among the sources.  The spec gives it as
    [Create(connectionKind, address, port, serverCA, apiKey, name,
    maxLogs, logger, extra) -> NodeHandle], a constructor that returns a
    handle; here it returns a new object holding its arguments. *)
Definition create_node (connection : NodeType) (address : string)
    (port : Z) (server_ca api_key name : string) (max_logs : Z)
    (extra_id : Z) (extra_usage_coefficient : Q) : M PasarGuardNode :=
  fun w =>
    let n := mkHandle (next_ref w) connection address port server_ca
               api_key name max_logs extra_id extra_usage_coefficient in
    (Ok n, mkWorld (_nodes w) (S (next_ref w)) (trace w ++ [EvCreateNode n])).

(** *** The serializers and the logger *)

Definition call_serialize_users_for_node (users : list User)
  : M ProtoUsers :=
  emit (EvSerializeUsers users) ;; ret (serialize_users_for_node users).

Definition call_serialize_user_for_node (id : Z) (uname : string)
    (settings : SettingsDict) (inbounds : option (list string))
  : M ProtoUser :=
  emit (EvSerializeUser id uname settings inbounds) ;;
  ret (serialize_user_for_node id uname settings inbounds).

Definition logger_info (msg : string) : M unit := emit (EvLogInfo msg).

(** *** Reads and writes of [self._nodes] *)

Definition nodes_get (id : Z) : M (option PasarGuardNode) :=
  fun w => (Ok (Dict.get (_nodes w) id), w).

Definition nodes_items : M (list (Z * PasarGuardNode)) :=
  fun w => (Ok (Dict.items (_nodes w)), w).

Definition nodes_values : M (list PasarGuardNode) :=
  fun w => (Ok (Dict.values (_nodes w)), w).

Definition nodes_delitem (id : Z) : M unit :=
  fun w =>
    match Dict.delitem (_nodes w) id with
    | Some d => (Ok tt, mkWorld d (next_ref w) (trace w ++ [EvDelItem id]))
    | None => (Raise (KeyError_nodes id), w)
    end.

Definition nodes_setitem (id : Z) (n : PasarGuardNode) : M unit :=
  fun w =>
    (Ok tt, mkWorld (Dict.setitem (_nodes w) id n) (next_ref w)
              (trace w ++ [EvSetItem id n])).

(** ** The manager *)

(** [type_map], read as the dictionary it is. *)
Definition type_map (k : NodeConnectionType) : option NodeType :=
  match k with
  | NodeConnectionType_rest => Some NodeType_rest
  | NodeConnectionType_grpc => Some NodeType_grpc
  | NodeConnectionType_other _ => None
  end.

(** [type_map[k]] *)
Definition type_map_getitem (k : NodeConnectionType) : M NodeType :=
  match type_map k with
  | Some t => ret t
  | None => raise (KeyError_type_map k)
  end.

(** [NodeManager.__init__] *)
Definition NodeManager_init : World := mkWorld [] 0 [].

Definition update_node (node : Node) : M PasarGuardNode :=
  old_node <- nodes_get (node_id node) ;;
  match old_node with
  | Some old_node =>
      try_except_pass_finally
        (set_health old_node INVALID ;; stop old_node)
        (nodes_delitem (node_id node))
  | None => ret tt
  end ;;
  connection <- type_map_getitem (connection_type node) ;;
  new_node <- create_node connection (node_address node) (node_port node)
                (node_server_ca node) (node_api_key node) (node_name node)
                (node_max_logs node) (node_id node)
                (usage_coefficient node) ;;
  nodes_setitem (node_id node) new_node ;;
  ret new_node.

Definition remove_node (id : Z) : M unit :=
  old_node <- nodes_get id ;;
  match old_node with
  | Some old_node =>
      try_except_pass_finally
        (set_health old_node INVALID ;; stop old_node)
        (nodes_delitem id)
  | None => ret tt
  end.

Definition get_node (id : Z) : M (option PasarGuardNode) :=
  nodes_get id.

Definition get_nodes : M Dict.t :=
  fun w => (Ok (_nodes w), w).

(** [[(id, node) for id, node in items if (await node.get_health() == h)]] *)
Fixpoint comprehension (h : Health) (items : list (Z * PasarGuardNode))
  : M (list (Z * PasarGuardNode)) :=
  match items with
  | [] => ret []
  | (id, node) :: rest =>
      got <- get_health node ;;
      tl <- comprehension h rest ;;
      ret (if Health_eqb got h then (id, node) :: tl else tl)
  end.

Definition get_healthy_nodes : M (list (Z * PasarGuardNode)) :=
  items <- nodes_items ;;
  nodes <- comprehension HEALTHY items ;;
  ret nodes.

Definition get_broken_nodes : M (list (Z * PasarGuardNode)) :=
  items <- nodes_items ;;
  nodes <- comprehension BROKEN items ;;
  ret nodes.

Definition get_not_connected_nodes : M (list (Z * PasarGuardNode)) :=
  items <- nodes_items ;;
  nodes <- comprehension NOT_CONNECTED items ;;
  ret nodes.

Definition update_users (users : list User) : M unit :=
  proto_users <- call_serialize_users_for_node users ;;
  values <- nodes_values ;;
  for_each values (fun node => handle_update_users node proto_users).

Definition _update_user (user : ProtoUser) : M unit :=
  values <- nodes_values ;;
  for_each values (fun node =>
    logger_info ("[" ++ name node ++ "] sending update request") ;;
    handle_update_user node user).

Definition update_user (user : UserResponse)
    (inbounds : option (list string)) : M unit :=
  proto_user <- call_serialize_user_for_node (user_id user) (username user)
                  (proxy_settings_dict (proxy_settings user)) inbounds ;;
  _update_user proto_user.

Definition remove_user (user : UserResponse) : M unit :=
  proto_user <- call_serialize_user_for_node (user_id user) (username user)
                  (proxy_settings_dict (proxy_settings user))
                  inbounds_default ;;
  _update_user proto_user.

End Manager.

(** ** Vocabulary of the statements *)

Section Vocabulary.

Context {U : UserSide} {B : Bridge}.

(** A call of one of the two writers, and a run of such calls, each on the
    state the one before left; what a call returns or raises is dropped. *)
Inductive writer_call : Type :=
| CallUpdateNode (node : Node)
| CallRemoveNode (id : Z).

Definition run_call (w : World) (c : writer_call) : World :=
  match c with
  | CallUpdateNode node => snd (update_node node w)
  | CallRemoveNode id => snd (remove_node id w)
  end.

Definition run_calls (cs : list writer_call) (w : World) : World :=
  fold_left run_call cs w.

(** The states the proofs work on: no key twice in the dictionary, no
    object twice among its values, and every handle in it is an object the
    runtime has already handed out. *)
Definition wf_world (w : World) : Prop :=
  NoDup (Dict.keys (_nodes w)) /\
  NoDup (map ref (Dict.values (_nodes w))) /\
  Forall (fun n => (ref n < next_ref w)%nat) (Dict.values (_nodes w)).

(** The state after a call: the dictionary and the counter as given, the
    trace extended by what the call did. *)
Definition after (w : World) (d : Dict.t) (r : nat) (evs : list event)
  : World :=
  mkWorld d r (trace w ++ evs).

(** The state after a call that leaves the dictionary as it is and does
    [evs]. *)
Definition logged (w : World) (evs : list event) : World :=
  after w (_nodes w) (next_ref w) evs.

(** What the retirement of [old] under the key [id] does: [stop] is only
    reached when [set_health] has returned. *)
Definition retirement (old : PasarGuardNode) (id : Z) : list event :=
  EvSetHealth old INVALID ::
  match node_set_health old INVALID with
  | None => [EvStop old]
  | Some _ => []
  end ++ [EvDelItem id].

(** What [except Exception] does not handle. *)
Definition uncaught (o : option exn) : option exn :=
  match o with
  | Some e => if isinstance_Exception e then None else Some e
  | None => None
  end.

(** The exception that leaves the retirement of [old], if any: what
    [set_health] raises, or what [stop] raises once [set_health] has
    returned, when it is not an instance of [Exception]. *)
Definition escapes (old : PasarGuardNode) : option exn :=
  match node_set_health old INVALID with
  | Some e => uncaught (Some e)
  | None => uncaught (node_stop old)
  end.

(** The same for the handle stored under [id], if there is one. *)
Definition escaped (w : World) (id : Z) : option exn :=
  match Dict.get (_nodes w) id with
  | Some old => escapes old
  | None => None
  end.

(** The state a writer reaches once the handle under [id], if there is
    one, has been retired: the state [remove_node] ends in, and the one in
    which [update_node] looks up [type_map]. *)
Definition retired (w : World) (id : Z) : World :=
  match Dict.get (_nodes w) id with
  | Some old =>
      after w (Dict.remove (_nodes w) id) (next_ref w) (retirement old id)
  | None => w
  end.

(** The handle [update_node] builds for [node] in the state [w]. *)
Definition built (w : World) (c : NodeType) (node : Node) : PasarGuardNode :=
  mkHandle (next_ref w) c (node_address node) (node_port node)
    (node_server_ca node) (node_api_key node) (node_name node)
    (node_max_logs node) (node_id node) (usage_coefficient node).

(** What a call that answers [o] gives its caller. *)
Definition outcome (o : option exn) : result unit :=
  match o with
  | None => Ok tt
  | Some e => Raise e
  end.

(** The health queries of a scan over [items]. *)
Definition queried (items : list (Z * PasarGuardNode)) : list event :=
  map (fun kv => EvGetHealth (snd kv)) items.

(** The elements a loop reaches when its body raises what [fault] says:
    those up to the first on which it raises, that one included; and what
    that one raises. *)
Fixpoint reached {A : Type} (fault : A -> option exn) (xs : list A)
  : list A :=
  match xs with
  | [] => []
  | x :: rest =>
      x :: match fault x with
           | None => reached fault rest
           | Some _ => []
           end
  end.

Fixpoint first_fault {A : Type} (fault : A -> option exn) (xs : list A)
  : option exn :=
  match xs with
  | [] => None
  | x :: rest =>
      match fault x with
      | Some e => Some e
      | None => first_fault fault rest
      end
  end.

(** What one round of each broadcast loop does on the handle [n]. *)
Definition single_round (p : ProtoUser) (n : PasarGuardNode) : list event :=
  [EvLogInfo ("[" ++ name n ++ "] sending update request"); EvUpdateUser n p].

Definition batch_round (p : ProtoUsers) (n : PasarGuardNode) : list event :=
  [EvUpdateUsers n p].

Definition is_batch_serialization (ev : event) : bool :=
  match ev with
  | EvSerializeUsers _ => true
  | _ => false
  end.

(** The calls of [stop] on the object [r] in a trace. *)
Definition is_stop_of (r : nat) (ev : event) : bool :=
  match ev with
  | EvStop n => Nat.eqb (ref n) r
  | _ => false
  end.

Definition stops_of (r : nat) (tr : list event) : nat :=
  List.length (filter (is_stop_of r) tr).

(** The calls of [update_user] on the object [r] in a trace. *)
Definition is_update_user_of (r : nat) (ev : event) : bool :=
  match ev with
  | EvUpdateUser n _ => Nat.eqb (ref n) r
  | _ => false
  end.

Definition update_user_calls_of (r : nat) (tr : list event) : nat :=
  List.length (filter (is_update_user_of r) tr).

End Vocabulary.

(** ** A concrete fleet *)

Module Fleet.

(** Serializers that keep their arguments. *)
#[local] Instance users : UserSide := {|
  User := string;
  ProxySettings := string;
  SettingsDict := string;
  ProtoUser := Z * string * string * option (list string);
  ProtoUsers := list string;
  proxy_settings_dict := fun s => s;
  serialize_users_for_node := fun us => us;
  serialize_user_for_node := fun i u s inb => (i, u, s, inb);
  inbounds_default := None
|}.

Inductive method : Type :=
| m_set_health
| m_stop
| m_get_health
| m_update_users
| m_update_user.

(** A transport where the call [m] on the object [r] raises when
    [bad m r], and where every health query that returns says HEALTHY. *)
Definition transport (bad : method -> nat -> bool) : Bridge := {|
  node_set_health := fun n _ =>
    if bad m_set_health (ref n) then Some (Exception "set_health failed")
    else None;
  node_stop := fun n =>
    if bad m_stop (ref n) then Some (Exception "stop failed") else None;
  node_get_health := fun n =>
    if bad m_get_health (ref n) then Raise (Exception "get_health failed")
    else Ok HEALTHY;
  node_update_users := fun n _ =>
    if bad m_update_users (ref n) then Some (Exception "update_users failed")
    else None;
  node_update_user := fun n _ =>
    if bad m_update_user (ref n) then Some (Exception "update_user failed")
    else None
|}.

Definition method_eqb (a b : method) : bool :=
  match a, b with
  | m_set_health, m_set_health
  | m_stop, m_stop
  | m_get_health, m_get_health
  | m_update_users, m_update_users
  | m_update_user, m_update_user => true
  | _, _ => false
  end.

(** The call [m] raises on the object [r], and no other call raises. *)
Definition fails (m : method) (r : nat) : method -> nat -> bool :=
  fun m' r' => method_eqb m m' && Nat.eqb r r'.

(** No call raises. *)
Definition sound : method -> nat -> bool := fun _ _ => false.

(** A transport where [stop] on the object [r] is cancelled: it raises
    [asyncio.CancelledError]; every other call returns, and every health
    query says HEALTHY. *)
Definition cancelled_stop (r : nat) : Bridge := {|
  node_set_health := fun _ _ => None;
  node_stop := fun n =>
    if Nat.eqb (ref n) r then Some (BaseException "CancelledError") else None;
  node_get_health := fun _ => Ok HEALTHY;
  node_update_users := fun _ _ => None;
  node_update_user := fun _ _ => None
|}.

Definition node_a : Node :=
  mkNode 1 NodeConnectionType_rest "10.0.0.1" 62050 "ca-a" "key-a" "a" 1000 1%Q.

Definition node_b : Node :=
  mkNode 2 NodeConnectionType_grpc "10.0.0.2" 62050 "ca-b" "key-b" "b" 1000 1%Q.

(** [node_a] again, with a connection kind [type_map] does not have. *)
Definition node_a_odd : Node :=
  mkNode 1 (NodeConnectionType_other "ws") "10.0.0.1" 62050 "ca-a" "key-a"
    "a" 1000 1%Q.

Definition handle_a : PasarGuardNode :=
  mkHandle 0 NodeType_rest "10.0.0.1" 62050 "ca-a" "key-a" "a" 1000 1 1%Q.

Definition handle_b : PasarGuardNode :=
  mkHandle 1 NodeType_grpc "10.0.0.2" 62050 "ca-b" "key-b" "b" 1000 2 1%Q.

(** The registry after [update_node(node_a)] and [update_node(node_b)] on a
    new manager; its dictionary is [{1: handle_a, 2: handle_b}]. *)
Definition registry_ab : World :=
  run_calls (B := transport sound)
    [CallUpdateNode node_a; CallUpdateNode node_b] NodeManager_init.

(** The registry after [update_node(node_a)] alone. *)
Definition registry_a : World :=
  run_calls (B := transport sound) [CallUpdateNode node_a] NodeManager_init.

Definition alice : UserResponse := mkUser 7 "alice" "vmess".

Definition alice_proto : ProtoUser := (7%Z, "alice", "vmess", None).

End Fleet.

(** ** More vocabulary: what a trace holds *)

Section Counting.

Context {U : UserSide}.

Definition count_events (f : event -> bool) (tr : list event) : nat :=
  List.length (filter f tr).

Definition is_create (ev : event) : bool :=
  match ev with
  | EvCreateNode _ => true
  | _ => false
  end.

Definition is_delitem (ev : event) : bool :=
  match ev with
  | EvDelItem _ => true
  | _ => false
  end.

Definition is_invalidate (ev : event) : bool :=
  match ev with
  | EvSetHealth _ INVALID => true
  | _ => false
  end.

Definition is_stop (ev : event) : bool :=
  match ev with
  | EvStop _ => true
  | _ => false
  end.

(** The books of a state: every handle created is still in the dictionary
    or has had its key deleted; every deletion came with a
    [set_health(INVALID)], and no [stop] without one. *)
Definition balanced (w : World) : Prop :=
  count_events is_create (trace w)
  = (List.length (_nodes w) + count_events is_delitem (trace w))%nat /\
  count_events is_invalidate (trace w) = count_events is_delitem (trace w) /\
  (count_events is_stop (trace w) <= count_events is_delitem (trace w))%nat.

(** Every handle of the dictionary carries, in [extra], the id it is
    stored under. *)
Definition keyed_by_extra_id (d : Dict.t) : Prop :=
  forall id n, In (id, n) d -> extra_id n = id.

(** The invariants of the runs of the writers, together. *)
Definition kept (w : World) : Prop :=
  wf_world w /\ balanced w /\ keyed_by_extra_id (_nodes w).

End Counting.

(** * The database session of [app/db/base.py] *)

Module Db.

(** An exception, as far as [__aexit__] looks at it: whether it is an
    instance of [SQLAlchemyError]. *)
Record exc : Type := mkExc {
  is_SQLAlchemyError : bool;
  exc_message : string
}.

Inductive outcome (A : Type) : Type :=
| Returned (a : A)
| Raised (e : exc).

Arguments Returned {A} a.
Arguments Raised {A} e.

(** A session, the object [SessionLocal()] returns. *)
Record AsyncSession : Type := mkSession {
  session_ref : nat
}.

(** What the module does with sessions, in program order. *)
Inductive ev : Type :=
| EvSessionLocal (s : AsyncSession)
| EvRollback (s : AsyncSession)
| EvClose (s : AsyncSession).

(** What [rollback] and [close] answer on a session: [None] for a call
    that returns, [Some e] for one that raises [e]. *)
Class Sessions : Type := {
  session_rollback : AsyncSession -> option exc;
  session_close : AsyncSession -> option exc
}.

Record State : Type := mkState {
  next_session : nat;
  log : list ev
}.

(** The object [GetDB()] builds. *)
Record GetDB : Type := mkGetDB {
  db : AsyncSession
}.

(** How the consumer of the generator [get_db] resumes it at its [yield]:
    with a value, or by throwing an exception in. *)
Inductive resume : Type :=
| Send
| Throw (e : exc).

Section Session.

Context {S : Sessions}.

Definition M (A : Type) : Type := State -> outcome A * State.

Definition ret {A} (a : A) : M A := fun st => (Returned a, st).

Definition raise {A} (e : exc) : M A := fun st => (Raised e, st).

Definition bind {A C} (m : M A) (k : A -> M C) : M C :=
  fun st =>
    match m st with
    | (Returned a, st1) => k a st1
    | (Raised e, st1) => (Raised e, st1)
    end.

Notation "x <- m ;; k" := (bind m (fun x => k))
  (at level 61, m at next level, right associativity).
Notation "m ;; k" := (bind m (fun _ => k))
  (at level 61, right associativity).

Definition emit (e : ev) : M unit :=
  fun st => (Returned tt, mkState (next_session st) (log st ++ [e])).

Definition of_outcome (o : option exc) : M unit :=
  match o with
  | None => ret tt
  | Some e => raise e
  end.

(** [SessionLocal()]: a new session. *)
Definition SessionLocal : M AsyncSession :=
  fun st =>
    let s := mkSession (next_session st) in
    (Returned s,
     mkState (Datatypes.S (next_session st)) (log st ++ [EvSessionLocal s])).

(** [await db.rollback()] and [await db.close()] *)
Definition rollback (s : AsyncSession) : M unit :=
  emit (EvRollback s) ;; of_outcome (session_rollback s).

Definition close (s : AsyncSession) : M unit :=
  emit (EvClose s) ;; of_outcome (session_close s).

(** [GetDB.__init__] *)
Definition GetDB_init : M GetDB :=
  s <- SessionLocal ;;
  ret (mkGetDB s).

(** [GetDB.__aenter__] *)
Definition GetDB_aenter (self : GetDB) : M AsyncSession :=
  ret (db self).

(** [isinstance(exc_value, SQLAlchemyError)]; [exc_value] is [None] when
    the block has ended without an exception. *)
Definition isinstance_SQLAlchemyError (exc_value : option exc) : bool :=
  match exc_value with
  | Some e => is_SQLAlchemyError e
  | None => false
  end.

(** [GetDB.__aexit__]; it returns [None]. *)
Definition GetDB_aexit (self : GetDB) (exc_value : option exc) : M unit :=
  (if isinstance_SQLAlchemyError exc_value then rollback (db self)
   else ret tt) ;;
  close (db self).

(** [get_db], up to its [yield]: the manager the frame keeps and the
    session it yields. *)
Definition get_db_first : M (GetDB * AsyncSession) :=
  mgr <- GetDB_init ;;
  db <- GetDB_aenter mgr ;;
  ret (mgr, db).

(** [get_db], from its [yield] on.  The [async with] block ends there:
    [__aexit__] is called with the exception thrown in, if any, and, as
    what it returns is not true, that exception is raised again. *)
Definition get_db_resume (mgr : GetDB) (r : resume) : M unit :=
  match r with
  | Send => GetDB_aexit mgr None
  | Throw e => GetDB_aexit mgr (Some e) ;; raise e
  end.

(** [get_db] run to its [yield] and resumed with [r]; it gives the session
    it has yielded. *)
Definition get_db (r : resume) : M AsyncSession :=
  frame <- get_db_first ;;
  get_db_resume (fst frame) r ;;
  ret (snd frame).

End Session.

(** The state once [evs] has been done. *)
Definition appended (st : State) (evs : list ev) : State :=
  mkState (next_session st) (log st ++ evs).

(** What the end of the [async with] block of [get_db] does to the session
    [s] when the generator is resumed with [r]: a rollback for an
    [SQLAlchemyError] thrown in, and the close unless that rollback has
    raised. *)
Definition leaving {S : Sessions} (s : AsyncSession) (r : resume) : list ev :=
  match r with
  | Throw e =>
      if is_SQLAlchemyError e then
        match session_rollback s with
        | None => [EvRollback s; EvClose s]
        | Some _ => [EvRollback s]
        end
      else [EvClose s]
  | Send => [EvClose s]
  end.

(** The rollback [get_db] attempts on [s] when resumed with [r] raises. *)
Definition rollback_raises {S : Sessions} (s : AsyncSession) (r : resume)
  : bool :=
  match r with
  | Throw e =>
      is_SQLAlchemyError e &&
      match session_rollback s with
      | Some _ => true
      | None => false
      end
  | Send => false
  end.

Definition is_rollback (e : ev) : bool :=
  match e with
  | EvRollback _ => true
  | _ => false
  end.

Definition is_close (e : ev) : bool :=
  match e with
  | EvClose _ => true
  | _ => false
  end.

Definition rollbacks (l : list ev) : nat := List.length (filter is_rollback l).

Definition closes (l : list ev) : nat := List.length (filter is_close l).

(** Sessions on which [rollback] raises when [rollback_fails], and [close]
    when [close_fails]. *)
Definition sessions (rollback_fails close_fails : bool) : Sessions := {|
  session_rollback := fun _ =>
    if rollback_fails then Some (mkExc true "rollback failed") else None;
  session_close := fun _ =>
    if close_fails then Some (mkExc false "close failed") else None
|}.

Definition new_state : State := mkState 0 [].

Definition integrity_error : exc := mkExc true "IntegrityError".

Definition value_error : exc := mkExc false "ValueError".

End Db.

(** * Facts *)

(** ** The dictionary *)

Lemma Health_eqb_eq (a b : Health) : Health_eqb a b = true <-> a = b.
Proof. destruct a, b; simpl; split; intro H; try reflexivity; discriminate H. Qed.

Lemma Dict_get_In (d : Dict.t) (k : Z) (v : PasarGuardNode) :
  Dict.get d k = Some v -> In (k, v) d.
Proof.
  induction d as [|[k' v'] rest IH]; simpl; [discriminate|].
  destruct (Z.eqb_spec k' k) as [->|Hne]; intro H.
  - injection H as ->. now left.
  - right. now apply IH.
Qed.

Lemma Dict_get_None (d : Dict.t) (k : Z) :
  Dict.get d k = None <-> ~ In k (Dict.keys d).
Proof.
  induction d as [|[k' v'] rest IH]; simpl.
  - split; [intros _ []|reflexivity].
  - destruct (Z.eqb_spec k' k) as [->|Hne].
    + split; [discriminate|]. intro H. exfalso. apply H. now left.
    + rewrite IH. split; intro H.
      * intros [Heq|Hin]; [now apply Hne|now apply H].
      * intro Hin. apply H. now right.
Qed.

Lemma Dict_remove_keys_incl (d : Dict.t) (k k' : Z) :
  In k' (Dict.keys (Dict.remove d k)) -> In k' (Dict.keys d).
Proof.
  induction d as [|[k0 v0] rest IH]; simpl; [tauto|].
  destruct (Z.eqb k0 k); simpl; intro H; [now right|].
  destruct H as [H|H]; [now left|right; now apply IH].
Qed.

Lemma Dict_remove_values_incl (d : Dict.t) (k : Z) (v : PasarGuardNode) :
  In v (Dict.values (Dict.remove d k)) -> In v (Dict.values d).
Proof.
  induction d as [|[k0 v0] rest IH]; simpl; [tauto|].
  destruct (Z.eqb k0 k); simpl; intro H; [now right|].
  destruct H as [H|H]; [now left|right; now apply IH].
Qed.

Lemma Dict_remove_NoDup (d : Dict.t) (k : Z) :
  NoDup (Dict.keys d) -> NoDup (Dict.keys (Dict.remove d k)).
Proof.
  induction d as [|[k0 v0] rest IH]; simpl; intro H; [constructor|].
  inversion H as [|? ? Hnotin Hrest]; subst.
  destruct (Z.eqb k0 k); simpl; [assumption|].
  constructor; [|now apply IH].
  intro Hin. apply Hnotin. now apply Dict_remove_keys_incl in Hin.
Qed.

Lemma Dict_remove_absent (d : Dict.t) (k : Z) :
  Dict.get d k = None -> Dict.remove d k = d.
Proof.
  induction d as [|[k0 v0] rest IH]; simpl; [reflexivity|].
  destruct (Z.eqb k0 k); [discriminate|]. intro H. now rewrite IH.
Qed.

Lemma Dict_get_remove_same (d : Dict.t) (k : Z) :
  NoDup (Dict.keys d) -> Dict.get (Dict.remove d k) k = None.
Proof.
  induction d as [|[k0 v0] rest IH]; simpl; intro H; [reflexivity|].
  inversion H as [|? ? Hnotin Hrest]; subst.
  destruct (Z.eqb_spec k0 k) as [->|Hne].
  - now apply Dict_get_None.
  - simpl. destruct (Z.eqb_spec k0 k); [contradiction|]. now apply IH.
Qed.

Lemma Dict_get_remove_other (d : Dict.t) (k k' : Z) :
  k' <> k -> Dict.get (Dict.remove d k) k' = Dict.get d k'.
Proof.
  intro Hne. induction d as [|[k0 v0] rest IH]; simpl; [reflexivity|].
  destruct (Z.eqb_spec k0 k) as [->|Hne0].
  - destruct (Z.eqb_spec k k'); [congruence|reflexivity].
  - simpl. now rewrite IH.
Qed.

Lemma Dict_setitem_absent (d : Dict.t) (k : Z) (v : PasarGuardNode) :
  Dict.get d k = None -> Dict.setitem d k v = d ++ [(k, v)].
Proof.
  induction d as [|[k0 v0] rest IH]; simpl; [reflexivity|].
  destruct (Z.eqb k0 k); [discriminate|]. intro H. now rewrite IH.
Qed.

Lemma Dict_setitem_keys_incl (d : Dict.t) (k k' : Z) (v : PasarGuardNode) :
  In k' (Dict.keys (Dict.setitem d k v)) -> k' = k \/ In k' (Dict.keys d).
Proof.
  induction d as [|[k0 v0] rest IH]; simpl.
  - intros [H|[]]. now left.
  - destruct (Z.eqb_spec k0 k) as [->|Hne]; simpl; intros [H|H].
    + left. now symmetry.
    + right. now right.
    + right. now left.
    + destruct (IH H) as [H1|H1]; [now left|right; now right].
Qed.

Lemma Dict_setitem_NoDup (d : Dict.t) (k : Z) (v : PasarGuardNode) :
  NoDup (Dict.keys d) -> NoDup (Dict.keys (Dict.setitem d k v)).
Proof.
  induction d as [|[k0 v0] rest IH]; simpl; intro H.
  - constructor; [intros []|constructor].
  - inversion H as [|? ? Hnotin Hrest]; subst.
    destruct (Z.eqb_spec k0 k) as [->|Hne]; simpl.
    + now constructor.
    + constructor; [|now apply IH].
      intro Hin. apply Dict_setitem_keys_incl in Hin as [Heq|Hin];
        [now apply Hne|now apply Hnotin].
Qed.

Lemma Dict_setitem_values_incl (d : Dict.t) (k : Z) (v v' : PasarGuardNode) :
  In v' (Dict.values (Dict.setitem d k v)) -> v' = v \/ In v' (Dict.values d).
Proof.
  induction d as [|[k0 v0] rest IH]; simpl.
  - intros [H|[]]. now left.
  - destruct (Z.eqb k0 k); simpl; intros [H|H].
    + left. now symmetry.
    + right. now right.
    + right. now left.
    + destruct (IH H) as [H1|H1]; [now left|right; now right].
Qed.

Lemma Dict_get_app_last (d : Dict.t) (k : Z) (v : PasarGuardNode) :
  Dict.get d k = None -> Dict.get (d ++ [(k, v)]) k = Some v.
Proof.
  induction d as [|[k0 v0] rest IH]; simpl.
  - now rewrite Z.eqb_refl.
  - destruct (Z.eqb k0 k); [discriminate|assumption].
Qed.

Lemma Dict_entries_absent (d : Dict.t) (k : Z) :
  Dict.get d k = None -> Dict.entries d k = [].
Proof.
  unfold Dict.entries.
  induction d as [|[k0 v0] rest IH]; simpl; [reflexivity|].
  destruct (Z.eqb k0 k); [discriminate|assumption].
Qed.

Lemma Dict_entries_present (d : Dict.t) (k : Z) (v : PasarGuardNode) :
  NoDup (Dict.keys d) -> Dict.get d k = Some v -> Dict.entries d k = [(k, v)].
Proof.
  unfold Dict.entries.
  induction d as [|[k0 v0] rest IH]; simpl; intros Hnd Hget; [discriminate|].
  inversion Hnd as [|? ? Hnotin Hrest]; subst.
  destruct (Z.eqb_spec k0 k) as [->|Hne].
  - injection Hget as ->. f_equal.
    apply (Dict_entries_absent rest k). now apply Dict_get_None.
  - now apply IH.
Qed.

Lemma Dict_entries_le_1 (d : Dict.t) (k : Z) :
  NoDup (Dict.keys d) -> (List.length (Dict.entries d k) <= 1)%nat.
Proof.
  intro Hnd. destruct (Dict.get d k) as [v|] eqn:Hget.
  - rewrite (Dict_entries_present d k v Hnd Hget). simpl. lia.
  - rewrite (Dict_entries_absent d k Hget). simpl. lia.
Qed.

Lemma Dict_remove_refs_NoDup (d : Dict.t) (k : Z) :
  NoDup (map ref (Dict.values d)) ->
  NoDup (map ref (Dict.values (Dict.remove d k))).
Proof.
  induction d as [|[k0 v0] rest IH]; simpl; intro H; [constructor|].
  inversion H as [|? ? Hnotin Hrest]; subst.
  destruct (Z.eqb k0 k); simpl; [assumption|].
  constructor; [|now apply IH].
  intro Hin. apply Hnotin. apply in_map_iff in Hin as [v [Hv Hin]].
  apply in_map_iff. exists v. split; [assumption|].
  now apply Dict_remove_values_incl in Hin.
Qed.

Lemma Dict_remove_drops_value (d : Dict.t) (k : Z) (v : PasarGuardNode) :
  NoDup (map ref (Dict.values d)) ->
  Dict.get d k = Some v -> ~ In v (Dict.values (Dict.remove d k)).
Proof.
  induction d as [|[k0 v0] rest IH]; simpl; intros Hnd Hget; [discriminate|].
  inversion Hnd as [|? ? Hnotin Hrest]; subst.
  destruct (Z.eqb_spec k0 k) as [->|Hne].
  - injection Hget as ->. intro Hin. apply Hnotin. now apply in_map.
  - simpl. intros [Heq|Hin].
    + subst v0. apply Hnotin. apply in_map.
      apply Dict_get_In in Hget.
      change v with (snd (k, v)). now apply in_map.
    + now apply (IH Hrest Hget).
Qed.

Lemma Dict_app_last_refs_NoDup (d : Dict.t) (k : Z) (v : PasarGuardNode) :
  NoDup (map ref (Dict.values d)) ->
  ~ In (ref v) (map ref (Dict.values d)) ->
  NoDup (map ref (Dict.values (d ++ [(k, v)]))).
Proof.
  induction d as [|[k0 v0] rest IH]; simpl; intros Hnd Hnew.
  - constructor; [intros []|constructor].
  - inversion Hnd as [|? ? Hnotin Hrest]; subst.
    constructor.
    + unfold Dict.values. rewrite map_app, map_app. simpl.
      intro Hin. apply in_app_or in Hin as [Hin|[Heq|[]]].
      * now apply Hnotin.
      * apply Hnew. now left.
    + apply IH; [assumption|]. intro Hin. apply Hnew. now right.
Qed.

(** ** The two writers *)

Section Writers.

Context {U : UserSide} {B : Bridge}.

(** The retirement block, shared by [update_node] and [remove_node]: it
    ends with the key deleted, and raises what [except Exception] has let
    through. *)
Lemma retirement_run (w : World) (old : PasarGuardNode) (id : Z) :
  Dict.get (_nodes w) id = Some old ->
  try_except_pass_finally
    (bind (set_health old INVALID) (fun _ => stop old))
    (nodes_delitem id) w
  = (outcome (escapes old),
     after w (Dict.remove (_nodes w) id) (next_ref w) (retirement old id)).
Proof.
  intro Hget.
  unfold try_except_pass_finally, set_health, stop, bind, emit, of_outcome,
    nodes_delitem, Dict.delitem, after, retirement, escapes, uncaught,
    outcome, ret, raise.
  destruct (node_set_health old INVALID) as [e|]; simpl.
  - destruct (isinstance_Exception e); simpl;
      rewrite Hget, <- app_assoc; reflexivity.
  - destruct (node_stop old) as [e|]; simpl;
      [destruct (isinstance_Exception e); simpl|];
      rewrite Hget, <- !app_assoc; reflexivity.
Qed.

Lemma remove_node_absent (w : World) (id : Z) :
  Dict.get (_nodes w) id = None -> remove_node id w = (Ok tt, w).
Proof.
  intro Hget. unfold remove_node, bind, nodes_get. now rewrite Hget.
Qed.

Lemma remove_node_present (w : World) (id : Z) (old : PasarGuardNode) :
  Dict.get (_nodes w) id = Some old ->
  remove_node id w
  = (outcome (escapes old),
     after w (Dict.remove (_nodes w) id) (next_ref w) (retirement old id)).
Proof.
  intro Hget. unfold remove_node, bind, nodes_get. rewrite Hget.
  now apply retirement_run.
Qed.

(** [update_node], case by case: an exception that leaves the retirement
    ends the call; otherwise the lookup in [type_map] decides. *)
Lemma update_node_run (w : World) (node : Node) :
  update_node node w
  = match escaped w (node_id node) with
    | Some e => (Raise e, retired w (node_id node))
    | None =>
        match type_map (connection_type node) with
        | None =>
            (Raise (KeyError_type_map (connection_type node)),
             retired w (node_id node))
        | Some c =>
            (Ok (built w c node),
             after (retired w (node_id node))
               (Dict.setitem (_nodes (retired w (node_id node)))
                  (node_id node) (built w c node))
               (S (next_ref w))
               [EvCreateNode (built w c node);
                EvSetItem (node_id node) (built w c node)])
        end
    end.
Proof.
  unfold update_node, escaped, retired, nodes_get, type_map_getitem.
  unfold bind at 1. simpl.
  destruct (Dict.get (_nodes w) (node_id node)) as [old|] eqn:Hget.
  - unfold bind at 1. rewrite (retirement_run w old _ Hget).
    destruct (escapes old) as [e|]; simpl; [reflexivity|].
    destruct (type_map (connection_type node)) as [c|]; [|reflexivity].
    unfold bind, ret, create_node, nodes_setitem, after, built. simpl.
    rewrite <- !app_assoc. reflexivity.
  - unfold bind at 1. simpl.
    destruct (type_map (connection_type node)) as [c|]; [|reflexivity].
    unfold bind, ret, create_node, nodes_setitem, after, built. simpl.
    rewrite <- !app_assoc. reflexivity.
Qed.

Lemma update_node_unknown (w : World) (node : Node) :
  type_map (connection_type node) = None ->
  update_node node w
  = (Raise match escaped w (node_id node) with
           | Some e => e
           | None => KeyError_type_map (connection_type node)
           end,
     retired w (node_id node)).
Proof.
  intro Hkind. rewrite update_node_run, Hkind.
  now destruct (escaped w (node_id node)).
Qed.

Lemma update_node_known (w : World) (node : Node) (c : NodeType) :
  type_map (connection_type node) = Some c ->
  escaped w (node_id node) = None ->
  let w1 := retired w (node_id node) in
  let new := built w c node in
  update_node node w
  = (Ok new,
     after w1 (Dict.setitem (_nodes w1) (node_id node) new)
       (S (next_ref w)) [EvCreateNode new; EvSetItem (node_id node) new]).
Proof.
  intros Hkind Hnone. cbv zeta. now rewrite update_node_run, Hnone, Hkind.
Qed.

Lemma update_node_escaped (w : World) (node : Node) (e : exn) :
  escaped w (node_id node) = Some e ->
  update_node node w = (Raise e, retired w (node_id node)).
Proof. intro Hesc. now rewrite update_node_run, Hesc. Qed.

Lemma retired_get (w : World) (id : Z) :
  NoDup (Dict.keys (_nodes w)) -> Dict.get (_nodes (retired w id)) id = None.
Proof.
  intro Hnd. unfold retired.
  destruct (Dict.get (_nodes w) id) as [old|] eqn:Hget; simpl.
  - now apply Dict_get_remove_same.
  - assumption.
Qed.

Lemma retired_nodes (w : World) (id : Z) :
  _nodes (retired w id) = Dict.remove (_nodes w) id.
Proof.
  unfold retired.
  destruct (Dict.get (_nodes w) id) as [old|] eqn:Hget; simpl.
  - reflexivity.
  - symmetry. now apply Dict_remove_absent.
Qed.

Lemma retired_next_ref (w : World) (id : Z) :
  next_ref (retired w id) = next_ref w.
Proof.
  unfold retired. now destruct (Dict.get (_nodes w) id).
Qed.

Lemma retired_wf (w : World) (id : Z) : wf_world w -> wf_world (retired w id).
Proof.
  intros (Hnd & Hrefs & Hfresh). repeat split.
  - rewrite retired_nodes. now apply Dict_remove_NoDup.
  - rewrite retired_nodes. now apply Dict_remove_refs_NoDup.
  - rewrite retired_nodes, retired_next_ref.
    rewrite Forall_forall in *. intros n Hin.
    apply Hfresh. now apply Dict_remove_values_incl in Hin.
Qed.

Lemma NodeManager_init_wf : wf_world NodeManager_init.
Proof. repeat split; simpl; constructor. Qed.

Lemma remove_node_wf (w : World) (id : Z) :
  wf_world w -> wf_world (snd (remove_node id w)).
Proof.
  intro Hwf. pose proof (retired_wf w id Hwf) as Hr. unfold retired in Hr.
  destruct (Dict.get (_nodes w) id) as [old|] eqn:Hget.
  - now rewrite (remove_node_present w id old Hget).
  - now rewrite (remove_node_absent w id Hget).
Qed.

Lemma update_node_wf (w : World) (node : Node) :
  wf_world w -> wf_world (snd (update_node node w)).
Proof.
  intro Hwf.
  pose proof (retired_wf w (node_id node) Hwf) as (Hnd & Hrefs & Hfresh).
  rewrite update_node_run.
  destruct (escaped w (node_id node)) as [e|]; [now repeat split|].
  destruct (type_map (connection_type node)) as [c|] eqn:Hkind;
    [|now repeat split].
  simpl.
  rewrite Forall_forall in Hfresh. rewrite retired_next_ref in Hfresh.
  repeat split; simpl.
  - now apply Dict_setitem_NoDup.
  - rewrite Dict_setitem_absent
      by (apply retired_get; apply Hwf).
    apply Dict_app_last_refs_NoDup; [assumption|].
    intro Hin. apply in_map_iff in Hin as [n [Hn Hin]].
    apply Hfresh in Hin. simpl in Hn. lia.
  - rewrite Forall_forall. intros n Hin.
    apply Dict_setitem_values_incl in Hin as [->|Hin].
    + simpl. lia.
    + apply Hfresh in Hin. lia.
Qed.

Lemma run_calls_wf (cs : list writer_call) (w : World) :
  wf_world w -> wf_world (run_calls cs w).
Proof.
  revert w. induction cs as [|c cs IH]; intros w Hwf; simpl; [assumption|].
  apply IH. destruct c; simpl; [now apply update_node_wf|now apply remove_node_wf].
Qed.

End Writers.

(** ** The loops over the handles *)

Section Readers.

Context {U : UserSide} {B : Bridge}.

Lemma logged_nil (w : World) : logged w [] = w.
Proof. destruct w. unfold logged, after. simpl. now rewrite app_nil_r. Qed.

Lemma logged_logged (w : World) (evs evs' : list event) :
  logged (logged w evs) evs' = logged w (evs ++ evs').
Proof. unfold logged, after. simpl. now rewrite app_assoc. Qed.

Lemma handle_update_users_run (n : PasarGuardNode) (p : ProtoUsers) (w : World) :
  handle_update_users n p w
  = (outcome (node_update_users n p), logged w (batch_round p n)).
Proof.
  unfold handle_update_users, bind, emit, of_outcome, outcome, ret, raise.
  now destruct (node_update_users n p).
Qed.

Lemma single_round_run (n : PasarGuardNode) (p : ProtoUser) (w : World) :
  bind (logger_info ("[" ++ name n ++ "] sending update request"))
    (fun _ => handle_update_user n p) w
  = (outcome (node_update_user n p), logged w (single_round p n)).
Proof.
  unfold handle_update_user, logger_info, bind, emit, of_outcome, outcome,
    ret, raise, logged, after, single_round. simpl.
  destruct (node_update_user n p); now rewrite <- app_assoc.
Qed.

Lemma get_health_run (n : PasarGuardNode) (w : World) :
  get_health n w = (node_get_health n, logged w [EvGetHealth n]).
Proof.
  unfold get_health, bind, emit, of_result. simpl.
  now destruct (node_get_health n).
Qed.

(** A loop whose every round returns runs all its rounds. *)
Lemma for_each_all_return {A : Type} (body : A -> M unit)
    (fault : A -> option exn) (round : A -> list event) (xs : list A) :
  (forall x w, body x w = (outcome (fault x), logged w (round x))) ->
  (forall x, In x xs -> fault x = None) ->
  forall w, for_each xs body w = (Ok tt, logged w (flat_map round xs)).
Proof.
  intros Hbody. induction xs as [|x xs IH]; intros Hok w; simpl.
  - unfold ret. now rewrite logged_nil.
  - unfold bind. rewrite Hbody, (Hok x (or_introl eq_refl)). simpl.
    rewrite IH by (intros y Hy; apply Hok; now right).
    now rewrite logged_logged.
Qed.

(** A loop stops at the first round that raises, and raises what that
    round raised. *)
Lemma for_each_first_failure {A : Type} (body : A -> M unit)
    (fault : A -> option exn) (round : A -> list event)
    (pre post : list A) (k : A) (e : exn) :
  (forall x w, body x w = (outcome (fault x), logged w (round x))) ->
  (forall x, In x pre -> fault x = None) ->
  fault k = Some e ->
  forall w,
    for_each (pre ++ k :: post) body w
    = (Raise e, logged w (flat_map round (pre ++ [k]))).
Proof.
  intros Hbody. induction pre as [|x pre IH]; intros Hok Hk w; simpl.
  - unfold bind. rewrite Hbody, Hk. simpl. now rewrite app_nil_r.
  - unfold bind. rewrite Hbody, (Hok x (or_introl eq_refl)). simpl.
    rewrite IH by (try assumption; intros y Hy; apply Hok; now right).
    now rewrite logged_logged.
Qed.

Lemma comprehension_all_return (h : Health) (health : PasarGuardNode -> Health)
    (items : list (Z * PasarGuardNode)) :
  (forall kv, In kv items -> node_get_health (snd kv) = Ok (health (snd kv))) ->
  forall w,
    comprehension h items w
    = (Ok (filter (fun kv => Health_eqb (health (snd kv)) h) items),
       logged w (queried items)).
Proof.
  induction items as [|[id n] rest IH]; intros Hok w; simpl.
  - unfold ret. now rewrite logged_nil.
  - unfold bind at 1. rewrite get_health_run.
    pose proof (Hok (id, n) (or_introl eq_refl)) as Hn. simpl in Hn.
    rewrite Hn. unfold bind at 1. rewrite IH by (intros kv Hkv; apply Hok; now right).
    unfold ret. rewrite logged_logged. simpl.
    now destruct (Health_eqb (health n) h).
Qed.

Lemma comprehension_first_failure (h : Health)
    (pre post : list (Z * PasarGuardNode)) (id : Z) (k : PasarGuardNode)
    (e : exn) :
  (forall kv, In kv pre -> exists got, node_get_health (snd kv) = Ok got) ->
  node_get_health k = Raise e ->
  forall w,
    comprehension h (pre ++ (id, k) :: post) w
    = (Raise e, logged w (queried (pre ++ [(id, k)]))).
Proof.
  induction pre as [|[id0 n] pre IH]; intros Hok Hk w; simpl.
  - unfold bind at 1. rewrite get_health_run, Hk. reflexivity.
  - unfold bind at 1. rewrite get_health_run.
    destruct (Hok (id0, n) (or_introl eq_refl)) as [got Hgot].
    simpl in Hgot. rewrite Hgot.
    unfold bind at 1.
    rewrite IH by (try assumption; intros kv Hkv; apply Hok; now right).
    now rewrite logged_logged.
Qed.

End Readers.

(** * The registry: [update_node], [remove_node], [get_node] *)

Section Registry.

Context {U : UserSide} {B : Bridge}.

(** C2, as amended.  For a node whose connection kind is not a key of
    [type_map], [update_node] raises and neither creates nor installs a
    handle.  When no handle is registered under the id, it raises the
    KeyError of the lookup and the state after the call is the state before
    it.  When a handle is registered under the id, the lookup comes after
    its retirement: the state after the call has that handle retired and
    its key deleted, the other entries as they were; the call raises the
    KeyError of the lookup, unless an exception that is not an instance of
    [Exception] has left the retirement, and then that exception. *)
Theorem update_node_unknown_kind (w : World) (node : Node) :
  type_map (connection_type node) = None ->
  match Dict.get (_nodes w) (node_id node) with
  | None =>
      update_node node w
      = (Raise (KeyError_type_map (connection_type node)), w)
  | Some old =>
      update_node node w
      = (Raise match escapes old with
               | Some e => e
               | None => KeyError_type_map (connection_type node)
               end,
         after w (Dict.remove (_nodes w) (node_id node)) (next_ref w)
           (retirement old (node_id node)))
      /\ forall id', id' <> node_id node ->
           Dict.get (Dict.remove (_nodes w) (node_id node)) id'
           = Dict.get (_nodes w) id'
  end.
Proof.
  intro Hkind. pose proof (update_node_unknown w node Hkind) as Hrun.
  unfold retired, escaped in Hrun.
  destruct (Dict.get (_nodes w) (node_id node)) as [old|]; [|assumption].
  split; [assumption|].
  intros id' Hne. now apply Dict_get_remove_other.
Qed.

(** C4, as amended.  Let a handle be registered under an id, and let [e] be
    what its retirement raises: what [set_health] raises, or what [stop]
    raises once [set_health] has returned.  In every case the handle is
    gone from the dictionary after the call.  When [e] is an instance of
    [Exception], [remove_node] returns, and [update_node], for a node whose
    connection kind is a key of [type_map], returns the handle it has just
    created, a new object, installed under the id.  When [e] is not an
    instance of [Exception], [except Exception] lets it through: both
    writers raise [e] once the key is deleted, and [update_node] creates
    nothing. *)
Theorem retirement_failure_is_contained
    (w : World) (node : Node) (old : PasarGuardNode) (e : exn) :
  wf_world w ->
  Dict.get (_nodes w) (node_id node) = Some old ->
  node_set_health old INVALID = Some e \/
  (node_set_health old INVALID = None /\ node_stop old = Some e) ->
  let id := node_id node in
  let w1 :=
    after w (Dict.remove (_nodes w) id) (next_ref w) (retirement old id) in
  Dict.get (_nodes w1) id = None /\
  ~ In old (Dict.values (_nodes w1)) /\
  if isinstance_Exception e then
    remove_node id w = (Ok tt, w1) /\
    (forall c, type_map (connection_type node) = Some c ->
       let new := built w c node in
       let w' :=
         after w1 (Dict.remove (_nodes w) id ++ [(id, new)]) (S (next_ref w))
           [EvCreateNode new; EvSetItem id new] in
       update_node node w = (Ok new, w') /\
       Dict.get (_nodes w') id = Some new /\
       new <> old /\
       ~ In old (Dict.values (_nodes w')))
  else
    remove_node id w = (Raise e, w1) /\
    update_node node w = (Raise e, w1).
Proof.
  intros (Hnd & Hrefs & Hfresh) Hget Hraise. cbv zeta.
  pose proof (Dict_get_remove_same _ (node_id node) Hnd) as Hgone.
  pose proof (Dict_remove_drops_value _ _ _ Hrefs Hget) as Hdrop.
  assert (Hesc : escapes old = uncaught (Some e)).
  { unfold escapes. destruct Hraise as [Hs|[Hs Hp]]; now rewrite Hs, ?Hp. }
  assert (Hw1 : retired w (node_id node)
                = after w (Dict.remove (_nodes w) (node_id node)) (next_ref w)
                    (retirement old (node_id node))).
  { unfold retired. now rewrite Hget. }
  split; [exact Hgone|]. split; [exact Hdrop|].
  rewrite (remove_node_present w _ old Hget), Hesc. simpl.
  destruct (isinstance_Exception e) eqn:Hinst; simpl.
  - split; [reflexivity|]. intros c Hkind.
    assert (Hnone : escaped w (node_id node) = None).
    { unfold escaped. rewrite Hget, Hesc. simpl. now rewrite Hinst. }
    rewrite (update_node_known w node c Hkind Hnone), Hw1. simpl.
    rewrite (Dict_setitem_absent _ _ _ Hgone).
    assert (Hnew : built w c node <> old).
    { intro Heq. rewrite Forall_forall in Hfresh.
      assert (Hold : (ref old < next_ref w)%nat).
      { apply Hfresh. apply Dict_get_In in Hget.
        change old with (snd (node_id node, old)). now apply in_map. }
      rewrite <- Heq in Hold. simpl in Hold. lia. }
    repeat split.
    + now apply Dict_get_app_last.
    + exact Hnew.
    + unfold Dict.values. rewrite map_app. simpl.
      intro Hin. apply in_app_or in Hin as [Hin|[Heq|[]]].
      * now apply Hdrop.
      * now apply Hnew.
  - split; [reflexivity|].
    rewrite (update_node_escaped w node e), Hw1; [reflexivity|].
    unfold escaped. rewrite Hget, Hesc. simpl. now rewrite Hinst.
Qed.

(** C5, as amended.  For an id with a handle registered, both writers call
    [set_health(INVALID)] on the old handle first.  When that call returns,
    [stop] is requested once, and the key is deleted after it whether [stop]
    returns or raises; when [set_health] raises, [stop] is not requested and
    the key is deleted next.  [remove_node] then returns, and [update_node],
    for a known connection kind, creates the new handle and stores it under
    the id, and [get_node] on the state it leaves returns the new handle,
    which is not the old one.  The one case in which the writers do not go
    on after the deletion is an exception that is not an instance of
    [Exception]: they raise it then, with the key deleted. *)
Theorem retirement_sequence (w : World) (node : Node) (old : PasarGuardNode) :
  wf_world w ->
  Dict.get (_nodes w) (node_id node) = Some old ->
  let id := node_id node in
  let steps :=
    match node_set_health old INVALID with
    | None => [EvSetHealth old INVALID; EvStop old; EvDelItem id]
    | Some _ => [EvSetHealth old INVALID; EvDelItem id]
    end in
  let w1 := after w (Dict.remove (_nodes w) id) (next_ref w) steps in
  remove_node id w = (outcome (escapes old), w1)
  /\
  (forall e, escapes old = Some e -> update_node node w = (Raise e, w1))
  /\
  (escapes old = None ->
   forall c, type_map (connection_type node) = Some c ->
     let new := built w c node in
     let w' :=
       after w (Dict.remove (_nodes w) id ++ [(id, new)]) (S (next_ref w))
         (steps ++ [EvCreateNode new; EvSetItem id new]) in
     update_node node w = (Ok new, w') /\
     get_node id w' = (Ok (Some new), w') /\
     new <> old).
Proof.
  intros (Hnd & Hrefs & Hfresh) Hget. cbv zeta.
  assert (Hsteps :
    retirement old (node_id node)
    = match node_set_health old INVALID with
      | None => [EvSetHealth old INVALID; EvStop old; EvDelItem (node_id node)]
      | Some _ => [EvSetHealth old INVALID; EvDelItem (node_id node)]
      end).
  { unfold retirement. now destruct (node_set_health old INVALID). }
  rewrite <- Hsteps.
  pose proof (Dict_get_remove_same _ (node_id node) Hnd) as Hgone.
  assert (Hw1 : retired w (node_id node)
                = after w (Dict.remove (_nodes w) (node_id node)) (next_ref w)
                    (retirement old (node_id node))).
  { unfold retired. now rewrite Hget. }
  assert (Hesc : escaped w (node_id node) = escapes old).
  { unfold escaped. now rewrite Hget. }
  split; [now apply remove_node_present|]. split.
  - intros e He. rewrite <- Hw1. apply update_node_escaped.
    now rewrite Hesc.
  - intros Hnone c Hkind. rewrite <- Hesc in Hnone. repeat split.
    + rewrite (update_node_known w node c Hkind Hnone).
      rewrite retired_nodes, (Dict_setitem_absent _ _ _ Hgone), Hw1.
      unfold after. simpl. rewrite <- app_assoc. reflexivity.
    + unfold get_node, nodes_get. simpl.
      now rewrite (Dict_get_app_last _ _ _ Hgone).
    + intro Heq. rewrite Forall_forall in Hfresh.
      assert (Hold : (ref old < next_ref w)%nat).
      { apply Hfresh. apply Dict_get_In in Hget.
        change old with (snd (node_id node, old)). now apply in_map. }
      rewrite <- Heq in Hold. simpl in Hold. lia.
Qed.

(** C6, as amended.  After any finite run of [update_node] and
    [remove_node] calls on a new manager, and so after each of its
    prefixes, the dictionary holds at most one entry per id.  [update_node]
    on an id that has a handle leaves one entry under that id, the handle
    it has created and returns, when the connection kind of the node is a
    key of [type_map] and no exception has left the retirement of the old
    handle; in the other cases it leaves no entry under that id. *)
Theorem one_handle_per_id (cs : list writer_call) (n : nat) :
  let w := run_calls (firstn n cs) NodeManager_init in
  (forall id, (List.length (Dict.entries (_nodes w) id) <= 1)%nat)
  /\
  (forall node old,
     Dict.get (_nodes w) (node_id node) = Some old ->
     Dict.entries (_nodes (snd (update_node node w))) (node_id node)
     = match escapes old, type_map (connection_type node) with
       | None, Some c => [(node_id node, built w c node)]
       | _, _ => []
       end
     /\
     (forall c,
        escapes old = None ->
        type_map (connection_type node) = Some c ->
        fst (update_node node w) = Ok (built w c node) /\
        built w c node <> old)).
Proof.
  intro w.
  assert (Hwf : wf_world w) by (apply run_calls_wf, NodeManager_init_wf).
  split.
  - intro id. apply Dict_entries_le_1, Hwf.
  - intros node old Hget.
    assert (Hesc : escaped w (node_id node) = escapes old).
    { unfold escaped. now rewrite Hget. }
    pose proof (retired_get w (node_id node) (proj1 Hwf)) as Hgone.
    split.
    + rewrite update_node_run, Hesc.
      destruct (escapes old) as [e|]; simpl;
        [now apply Dict_entries_absent|].
      destruct (type_map (connection_type node)) as [c|]; simpl;
        [|now apply Dict_entries_absent].
      rewrite (Dict_setitem_absent _ _ _ Hgone).
      apply Dict_entries_present.
      * pose proof (retired_wf w (node_id node) Hwf) as (Hnd' & _).
        pose proof (Dict_setitem_NoDup _ (node_id node) (built w c node) Hnd')
          as Hnd''.
        now rewrite (Dict_setitem_absent _ _ _ Hgone) in Hnd''.
      * now apply Dict_get_app_last.
    + intros c Hnone Hkind. rewrite <- Hesc in Hnone.
      rewrite (update_node_known w node c Hkind Hnone). split; [reflexivity|].
      destruct Hwf as (_ & _ & Hfresh). rewrite Forall_forall in Hfresh.
      assert (Hold : (ref old < next_ref w)%nat).
      { apply Hfresh. apply Dict_get_In in Hget.
        change old with (snd (node_id node, old)). now apply in_map. }
      intro Heq. rewrite <- Heq in Hold. simpl in Hold. lia.
Qed.

(** C7.  For an id that is not a key of the dictionary, [remove_node]
    returns and leaves the whole state as it was: the dictionary is the
    same, and the trace is the same, so that no handle has been called. *)
Theorem remove_node_absent_is_noop (w : World) (id : Z) :
  ~ In id (Dict.keys (_nodes w)) ->
  remove_node id w = (Ok tt, w).
Proof.
  intro Habsent. apply remove_node_absent. now apply Dict_get_None.
Qed.

End Registry.

(** * The health scans *)

Section Scans.

Context {U : UserSide} {B : Bridge}.

(** C3, as amended.  The three scans query the handles in the order of the
    dictionary, with nothing around the query to handle what it raises:
    when [get_health] raises on a handle and has returned on every handle
    before it, each scan raises that exception to its caller, returns no
    list, and queries no handle after the failing one. *)
Theorem health_scan_raises_at_first_failure
    (w : World) (pre post : list (Z * PasarGuardNode)) (id : Z)
    (k : PasarGuardNode) (e : exn) :
  Dict.items (_nodes w) = pre ++ (id, k) :: post ->
  (forall kv, In kv pre -> exists got, node_get_health (snd kv) = Ok got) ->
  node_get_health k = Raise e ->
  let w' := logged w (queried (pre ++ [(id, k)])) in
  get_healthy_nodes w = (Raise e, w') /\
  get_broken_nodes w = (Raise e, w') /\
  get_not_connected_nodes w = (Raise e, w').
Proof.
  intros Hitems Hpre Hk w'.
  unfold get_healthy_nodes, get_broken_nodes, get_not_connected_nodes.
  unfold bind at 1 3 5. unfold nodes_items. rewrite Hitems.
  unfold bind.
  now rewrite !(comprehension_first_failure _ pre post id k e Hpre Hk).
Qed.

(** C8.  When the health query returns on every handle of the dictionary,
    each scan returns the (id, handle) pairs of the dictionary, in its
    order, whose queried health is the one the scan asks for: every such
    pair and no other. *)
Theorem health_scans_are_exact (w : World) (health : PasarGuardNode -> Health) :
  (forall n, In n (Dict.values (_nodes w)) -> node_get_health n = Ok (health n)) ->
  let matching h :=
    filter (fun kv => Health_eqb (health (snd kv)) h) (Dict.items (_nodes w)) in
  let w' := logged w (queried (Dict.items (_nodes w))) in
  get_healthy_nodes w = (Ok (matching HEALTHY), w') /\
  get_broken_nodes w = (Ok (matching BROKEN), w') /\
  get_not_connected_nodes w = (Ok (matching NOT_CONNECTED), w') /\
  (forall h id n,
     In (id, n) (matching h) <->
     In (id, n) (Dict.items (_nodes w)) /\ health n = h).
Proof.
  intros Hall matching w'.
  assert (Hitems : forall kv, In kv (Dict.items (_nodes w)) ->
                     node_get_health (snd kv) = Ok (health (snd kv))).
  { intros kv Hin. apply Hall. now apply in_map. }
  unfold get_healthy_nodes, get_broken_nodes, get_not_connected_nodes.
  unfold bind at 1 3 5. unfold nodes_items.
  unfold bind.
  rewrite !(comprehension_all_return _ health _ Hitems).
  split; [reflexivity|]. split; [reflexivity|]. split; [reflexivity|].
  intros h id n. unfold matching. rewrite filter_In. simpl.
  now rewrite Health_eqb_eq.
Qed.

End Scans.

(** * The broadcasts *)

Section Broadcasts.

Context {U : UserSide} {B : Bridge}.

Lemma _update_user_first_failure (w : World) (p : ProtoUser)
    (pre post : list PasarGuardNode) (k : PasarGuardNode) (e : exn) :
  Dict.values (_nodes w) = pre ++ k :: post ->
  (forall n, In n pre -> node_update_user n p = None) ->
  node_update_user k p = Some e ->
  _update_user p w
  = (Raise e, logged w (flat_map (single_round p) (pre ++ [k]))).
Proof.
  intros Hvalues Hpre Hk. unfold _update_user, nodes_values.
  unfold bind at 1. rewrite Hvalues.
  apply (for_each_first_failure _ (fun n => node_update_user n p)
           (single_round p) pre post k e); try assumption.
  intros n w0. apply single_round_run.
Qed.

Lemma serialize_then (id : Z) (uname : string) (settings : SettingsDict)
    (inbounds : option (list string)) (k : ProtoUser -> M unit) (w : World) :
  bind (call_serialize_user_for_node id uname settings inbounds) k w
  = k (serialize_user_for_node id uname settings inbounds)
      (logged w [EvSerializeUser id uname settings inbounds]).
Proof. reflexivity. Qed.

Lemma update_users_run (users : list User) (w : World) :
  update_users users w
  = for_each (Dict.values (_nodes w))
      (fun n => handle_update_users n (serialize_users_for_node users))
      (logged w [EvSerializeUsers users]).
Proof. reflexivity. Qed.

(** C1, as amended.  No broadcast handles what a handle raises.  When the
    call on the handle [k] raises and the call on every handle before [k],
    in the order of the dictionary, has returned, the broadcast has called
    the handles up to [k], in that order, calls no handle after [k], and
    raises to its caller what [k] raised.  This holds for [_update_user],
    for [update_user] and [remove_user], which go through it, and for
    [update_users]. *)
Theorem broadcast_stops_at_first_failure
    (w : World) (pre post : list PasarGuardNode) (k : PasarGuardNode)
    (e : exn) :
  Dict.values (_nodes w) = pre ++ k :: post ->
  (forall p : ProtoUser,
     (forall n, In n pre -> node_update_user n p = None) ->
     node_update_user k p = Some e ->
     _update_user p w
     = (Raise e, logged w (flat_map (single_round p) (pre ++ [k]))))
  /\
  (forall (user : UserResponse) (inbounds : option (list string)),
     let settings := proxy_settings_dict (proxy_settings user) in
     let p := serialize_user_for_node (user_id user) (username user)
                settings inbounds in
     (forall n, In n pre -> node_update_user n p = None) ->
     node_update_user k p = Some e ->
     update_user user inbounds w
     = (Raise e,
        logged w
          (EvSerializeUser (user_id user) (username user) settings inbounds
           :: flat_map (single_round p) (pre ++ [k]))))
  /\
  (forall user : UserResponse,
     let settings := proxy_settings_dict (proxy_settings user) in
     let p := serialize_user_for_node (user_id user) (username user)
                settings inbounds_default in
     (forall n, In n pre -> node_update_user n p = None) ->
     node_update_user k p = Some e ->
     remove_user user w
     = (Raise e,
        logged w
          (EvSerializeUser (user_id user) (username user) settings
             inbounds_default
           :: flat_map (single_round p) (pre ++ [k]))))
  /\
  (forall users : list User,
     let p := serialize_users_for_node users in
     (forall n, In n pre -> node_update_users n p = None) ->
     node_update_users k p = Some e ->
     update_users users w
     = (Raise e,
        logged w
          (EvSerializeUsers users :: flat_map (batch_round p) (pre ++ [k])))).
Proof.
  intro Hvalues. repeat split.
  - intros p Hpre Hk. now apply (_update_user_first_failure w p pre post k e).
  - intros user inbounds settings p Hpre Hk.
    unfold update_user. rewrite serialize_then.
    rewrite (_update_user_first_failure (logged w _) _ pre post k e
               Hvalues Hpre Hk).
    now rewrite logged_logged.
  - intros user settings p Hpre Hk.
    unfold remove_user. rewrite serialize_then.
    rewrite (_update_user_first_failure (logged w _) _ pre post k e
               Hvalues Hpre Hk).
    now rewrite logged_logged.
  - intros users p Hpre Hk. rewrite update_users_run, Hvalues.
    rewrite (for_each_first_failure _ (fun n => node_update_users n p)
               (batch_round p) pre post k e); try assumption.
    + now rewrite logged_logged.
    + intros n w0. apply handle_update_users_run.
Qed.

Lemma batch_loop_trace (p : ProtoUsers) (xs : list PasarGuardNode) (w : World) :
  exists evs,
    trace (snd (for_each xs (fun n => handle_update_users n p) w))
    = trace w ++ evs /\
    filter is_batch_serialization evs = [].
Proof.
  revert w. induction xs as [|x xs IH]; intro w; simpl.
  - exists []. now rewrite app_nil_r.
  - unfold bind. rewrite handle_update_users_run.
    destruct (node_update_users x p) as [e|]; simpl.
    + exists (batch_round p x). now split.
    + destruct (IH (logged w (batch_round p x))) as [evs [Htr Hnone]].
      exists (batch_round p x ++ evs). split.
      * rewrite Htr. simpl. now rewrite <- app_assoc.
      * simpl. assumption.
Qed.

(** C9.  [update_users] calls the batch serializer once, however many
    handles the dictionary holds and whatever they answer; and when the
    call returns on every handle, it has called [update_users], with the
    one serialized batch, on every handle of the dictionary, and
    returns. *)
Theorem update_users_serializes_once (w : World) (users : list User) :
  let p := serialize_users_for_node users in
  (exists evs,
     trace (snd (update_users users w)) = trace w ++ evs /\
     List.length (filter is_batch_serialization evs) = 1%nat)
  /\
  ((forall n, In n (Dict.values (_nodes w)) -> node_update_users n p = None) ->
   update_users users w
   = (Ok tt,
      logged w
        (EvSerializeUsers users
         :: flat_map (batch_round p) (Dict.values (_nodes w))))).
Proof.
  intro p.
  pose proof (update_users_run users w) as Hrun. fold p in Hrun.
  split.
  - rewrite Hrun.
    destruct (batch_loop_trace p (Dict.values (_nodes w))
                (logged w [EvSerializeUsers users])) as [evs [Htr Hnone]].
    exists (EvSerializeUsers users :: evs). split.
    + rewrite Htr. simpl. now rewrite <- app_assoc.
    + simpl. now rewrite Hnone.
  - intro Hall. rewrite Hrun.
    rewrite (for_each_all_return _ (fun n => node_update_users n p)
               (batch_round p)); try assumption.
    + now rewrite logged_logged.
    + intros n w0. apply handle_update_users_run.
Qed.

Lemma for_each_run {A : Type} (body : A -> M unit)
    (fault : A -> option exn) (round : A -> list event) (xs : list A) :
  (forall x w, body x w = (outcome (fault x), logged w (round x))) ->
  forall w,
    for_each xs body w
    = (outcome (first_fault fault xs),
       logged w (flat_map round (reached fault xs))).
Proof.
  intro Hbody. induction xs as [|x xs IH]; intro w; simpl.
  - unfold ret. now rewrite logged_nil.
  - unfold bind. rewrite Hbody. destruct (fault x) as [e|]; simpl.
    + now rewrite app_nil_r.
    + now rewrite IH, logged_logged.
Qed.

Lemma reached_all {A : Type} (fault : A -> option exn) (xs : list A) :
  (forall x, In x xs -> fault x = None) -> reached fault xs = xs.
Proof.
  induction xs as [|x xs IH]; intro Hok; simpl; [reflexivity|].
  rewrite (Hok x (or_introl eq_refl)), IH; [reflexivity|].
  intros y Hy. apply Hok. now right.
Qed.

Lemma update_user_run (user : UserResponse) (i : option (list string))
    (w : World) :
  bind (call_serialize_user_for_node (user_id user) (username user)
          (proxy_settings_dict (proxy_settings user)) i) _update_user w
  = (outcome
       (first_fault
          (fun n => node_update_user n
             (serialize_user_for_node (user_id user) (username user)
                (proxy_settings_dict (proxy_settings user)) i))
          (Dict.values (_nodes w))),
     logged w
       (EvSerializeUser (user_id user) (username user)
          (proxy_settings_dict (proxy_settings user)) i
        :: flat_map
             (single_round
                (serialize_user_for_node (user_id user) (username user)
                   (proxy_settings_dict (proxy_settings user)) i))
             (reached
                (fun n => node_update_user n
                   (serialize_user_for_node (user_id user) (username user)
                      (proxy_settings_dict (proxy_settings user)) i))
                (Dict.values (_nodes w))))).
Proof.
  rewrite serialize_then. unfold _update_user, nodes_values.
  unfold bind at 1. simpl.
  rewrite (for_each_run _
             (fun n => node_update_user n
                (serialize_user_for_node (user_id user) (username user)
                   (proxy_settings_dict (proxy_settings user)) i))
             (single_round
                (serialize_user_for_node (user_id user) (username user)
                   (proxy_settings_dict (proxy_settings user)) i))).
  - now rewrite logged_logged.
  - intros n w0. apply single_round_run.
Qed.

(** C10.  What [update_user(user, i)] and [remove_user(user)] do, on every
    state and whatever the handles answer: one call of the serializer on
    the id, the username and the proxy settings of the user, with [i] for
    the one and the serializer's default for the other, and then, for each
    handle in the order of the dictionary, the log line and
    [node.update_user] with the serialized user, up to the first handle on
    which that call raises, whose exception is raised; every handle when
    none raises.  Nothing else is called on a handle.  With [None] as the
    default of the serializer's [inbounds] parameter, [remove_user(user)]
    is [update_user(user, None)]: the same outcome and the same trace. *)
Theorem remove_user_is_update_user_without_inbounds
    (user : UserResponse) (w : World) :
  let settings := proxy_settings_dict (proxy_settings user) in
  let sent i :=
    serialize_user_for_node (user_id user) (username user) settings i in
  let fault i n := node_update_user n (sent i) in
  let run i :=
    (outcome (first_fault (fault i) (Dict.values (_nodes w))),
     logged w
       (EvSerializeUser (user_id user) (username user) settings i
        :: flat_map (single_round (sent i))
             (reached (fault i) (Dict.values (_nodes w))))) in
  (forall i, update_user user i w = run i) /\
  remove_user user w = run inbounds_default /\
  (forall i,
     (forall n, In n (Dict.values (_nodes w)) -> fault i n = None) ->
     reached (fault i) (Dict.values (_nodes w)) = Dict.values (_nodes w) /\
     first_fault (fault i) (Dict.values (_nodes w)) = None) /\
  (inbounds_default = None ->
   remove_user user w = update_user user None w).
Proof.
  cbv zeta. split; [|split; [|split]].
  - intro i. apply update_user_run.
  - apply update_user_run.
  - intros i Hall. split; [now apply reached_all|].
    induction (Dict.values (_nodes w)) as [|n ns IH]; simpl; [reflexivity|].
    rewrite (Hall n (or_introl eq_refl)). apply IH.
    intros m Hm. apply Hall. now right.
  - intro Hdefault. unfold remove_user, update_user. now rewrite Hdefault.
Qed.

End Broadcasts.

(** * The statements on the concrete fleet *)

Module FleetFacts.

Import Fleet.

#[local] Existing Instance users.

Example registry_ab_nodes :
  _nodes registry_ab = [(1%Z, handle_a); (2%Z, handle_b)].
Proof. reflexivity. Qed.

Example registry_a_nodes : _nodes registry_a = [(1%Z, handle_a)].
Proof. reflexivity. Qed.

Lemma registry_ab_wf : wf_world registry_ab.
Proof. apply run_calls_wf, NodeManager_init_wf. Defined.

(** C1, the claim as first stated fails: with [{1: handle_a, 2: handle_b}]
    and [update_user] raising on [handle_a] only, [update_user(alice)]
    raises, and [update_user] is never called on [handle_b]. *)
Lemma update_user_raises_and_skips_the_rest :
  let B := transport (fails m_update_user 0) in
  Dict.values (_nodes registry_ab) = [handle_a; handle_b] /\
  node_update_user handle_a alice_proto
  = Some (Exception "update_user failed") /\
  node_update_user handle_b alice_proto = None /\
  fst (update_user alice None registry_ab)
  = Raise (Exception "update_user failed") /\
  update_user_calls_of (ref handle_b)
    (trace (snd (update_user alice None registry_ab))) = 0%nat /\
  ~ (fst (update_user alice None registry_ab) = Ok tt /\
     update_user_calls_of (ref handle_b)
       (trace (snd (update_user alice None registry_ab))) = 1%nat).
Proof.
  cbv zeta. repeat split; try reflexivity.
  intros [Hok _]. vm_compute in Hok. discriminate Hok.
Qed.

Lemma broadcast_stops_at_first_failure_witness :
  let B := transport (fails m_update_user 1) in
  Dict.values (_nodes registry_ab) = [handle_a] ++ handle_b :: [] /\
  update_user alice None registry_ab
  = (Raise (Exception "update_user failed"),
     logged registry_ab
       (EvSerializeUser (U := users) 7 "alice" "vmess" None
        :: flat_map (single_round alice_proto) ([handle_a] ++ [handle_b]))).
Proof.
  cbv zeta. split; [reflexivity|].
  apply (proj1 (proj2
           (broadcast_stops_at_first_failure
              (B := transport (fails m_update_user 1))
              registry_ab [handle_a] [] handle_b
              (Exception "update_user failed") eq_refl))
           alice None).
  - intros n [<-|[]]. reflexivity.
  - reflexivity.
Defined.

(** C2, the claim as first stated fails: with [handle_a] registered under
    the id 1, [update_node] of a node with the id 1 and a connection kind
    that is not in [type_map] raises, but only after it has retired
    [handle_a] and deleted the key: the dictionary is empty afterwards. *)
Lemma update_node_unknown_kind_drops_old_handle :
  let B := transport sound in
  type_map (connection_type node_a_odd) = None /\
  Dict.get (_nodes registry_a) (node_id node_a_odd) = Some handle_a /\
  fst (update_node node_a_odd registry_a)
  = Raise (KeyError_type_map (NodeConnectionType_other "ws")) /\
  _nodes (snd (update_node node_a_odd registry_a)) = [] /\
  _nodes (snd (update_node node_a_odd registry_a)) <> _nodes registry_a.
Proof.
  cbv zeta. repeat split; try reflexivity.
  intro Heq. vm_compute in Heq. discriminate Heq.
Qed.

Lemma update_node_unknown_kind_witness :
  let B := transport sound in
  type_map (connection_type node_a_odd) = None /\
  update_node node_a_odd registry_a
  = (Raise (KeyError_type_map (NodeConnectionType_other "ws")),
     after registry_a [] 1
       [EvSetHealth handle_a INVALID; EvStop handle_a; EvDelItem 1]).
Proof.
  cbv zeta. split; [reflexivity|].
  exact (proj1 (update_node_unknown_kind (B := transport sound)
                  registry_a node_a_odd eq_refl)).
Defined.

(** C3, the claim as first stated fails: with [{1: handle_a, 2: handle_b}],
    [get_health] raising on [handle_a] and answering HEALTHY on [handle_b],
    [get_healthy_nodes] raises; it does not return [[(2, handle_b)]]. *)
Lemma get_healthy_nodes_raises :
  let B := transport (fails m_get_health 0) in
  node_get_health handle_a = Raise (Exception "get_health failed") /\
  node_get_health handle_b = Ok HEALTHY /\
  fst (get_healthy_nodes registry_ab)
  = Raise (Exception "get_health failed") /\
  fst (get_healthy_nodes registry_ab) <> Ok [(2%Z, handle_b)].
Proof.
  cbv zeta. repeat split; try reflexivity.
  intro Heq. vm_compute in Heq. discriminate Heq.
Qed.

Lemma health_scan_raises_at_first_failure_witness :
  let B := transport (fails m_get_health 1) in
  Dict.items (_nodes registry_ab) = [(1%Z, handle_a)] ++ (2%Z, handle_b) :: [] /\
  get_healthy_nodes registry_ab
  = (Raise (Exception "get_health failed"),
     logged registry_ab [EvGetHealth handle_a; EvGetHealth handle_b]).
Proof.
  cbv zeta. split; [reflexivity|].
  apply (health_scan_raises_at_first_failure
           (B := transport (fails m_get_health 1))
           registry_ab [(1%Z, handle_a)] [] 2%Z handle_b
           (Exception "get_health failed") eq_refl).
  - intros kv [<-|[]]. exists HEALTHY. reflexivity.
  - reflexivity.
Defined.

(** C4, the claim as first stated fails, in two ways.  With [handle_a]
    registered under the id 1 and its [stop] cancelled, both writers raise
    the [CancelledError]: [except Exception] does not handle it.  And with
    a [stop] that raises an instance of [Exception], [update_node] of a node
    whose connection kind is not in [type_map] still raises, the KeyError of
    the lookup, and installs nothing under the id. *)
Lemma retirement_failure_is_not_always_contained :
  (let B := cancelled_stop 0 in
   Dict.get (_nodes registry_ab) 1 = Some handle_a /\
   node_stop handle_a = Some (BaseException "CancelledError") /\
   fst (remove_node 1 registry_ab) = Raise (BaseException "CancelledError") /\
   fst (update_node node_a registry_ab)
   = Raise (BaseException "CancelledError") /\
   Dict.get (_nodes (snd (update_node node_a registry_ab))) 1 = None) /\
  (let B := transport (fails m_stop 0) in
   Dict.get (_nodes registry_ab) 1 = Some handle_a /\
   node_stop handle_a = Some (Exception "stop failed") /\
   fst (update_node node_a_odd registry_ab)
   = Raise (KeyError_type_map (NodeConnectionType_other "ws")) /\
   Dict.get (_nodes (snd (update_node node_a_odd registry_ab))) 1 = None).
Proof. cbv zeta. repeat split; reflexivity. Qed.

Lemma retirement_failure_is_contained_witness :
  let B := transport (fails m_stop 0) in
  wf_world registry_ab /\
  Dict.get (_nodes registry_ab) (node_id node_a) = Some handle_a /\
  (node_set_health handle_a INVALID = None /\
   node_stop handle_a = Some (Exception "stop failed")) /\
  remove_node 1 registry_ab
  = (Ok tt,
     after registry_ab [(2%Z, handle_b)] 2
       [EvSetHealth handle_a INVALID; EvStop handle_a; EvDelItem 1]) /\
  fst (update_node node_a registry_ab)
  = Ok (built registry_ab NodeType_rest node_a) /\
  Dict.get (_nodes (snd (update_node node_a registry_ab))) 1
  = Some (built registry_ab NodeType_rest node_a).
Proof.
  cbv zeta.
  assert (Hraise :
    node_set_health (Bridge := transport (fails m_stop 0)) handle_a INVALID
    = None /\
    node_stop (Bridge := transport (fails m_stop 0)) handle_a
    = Some (Exception "stop failed")) by (split; reflexivity).
  split; [exact registry_ab_wf|].
  split; [reflexivity|]. split; [exact Hraise|].
  pose proof (proj2 (proj2
    (retirement_failure_is_contained
       (B := transport (fails m_stop 0))
       registry_ab node_a handle_a (Exception "stop failed")
       registry_ab_wf eq_refl (or_intror Hraise)))) as [Hremove Hupdate].
  split; [exact Hremove|].
  destruct (Hupdate NodeType_rest eq_refl) as (Hrun & Hget & _).
  split.
  - exact (f_equal fst Hrun).
  - exact (eq_trans (f_equal (fun r => Dict.get (_nodes (snd r)) 1%Z) Hrun)
             Hget).
Defined.

(** C5, the claim as first stated fails: with [handle_a] registered under
    the id 1 and [set_health] raising on it, [remove_node(1)] deletes the
    key without ever requesting [stop] from [handle_a]. *)
Lemma remove_node_skips_stop :
  let B := transport (fails m_set_health 0) in
  Dict.get (_nodes registry_ab) 1 = Some handle_a /\
  node_set_health handle_a INVALID = Some (Exception "set_health failed") /\
  fst (remove_node 1 registry_ab) = Ok tt /\
  Dict.get (_nodes (snd (remove_node 1 registry_ab))) 1 = None /\
  stops_of (ref handle_a) (trace (snd (remove_node 1 registry_ab))) = 0%nat /\
  stops_of (ref handle_a) (trace (snd (remove_node 1 registry_ab))) <> 1%nat.
Proof.
  cbv zeta. repeat split; try reflexivity.
  intro Heq. vm_compute in Heq. discriminate Heq.
Qed.

Lemma retirement_sequence_witness :
  let B := transport (fails m_stop 0) in
  wf_world registry_ab /\
  Dict.get (_nodes registry_ab) (node_id node_a) = Some handle_a /\
  remove_node 1 registry_ab
  = (Ok tt,
     after registry_ab [(2%Z, handle_b)] 2
       [EvSetHealth handle_a INVALID; EvStop handle_a; EvDelItem 1]).
Proof.
  cbv zeta. split; [exact registry_ab_wf|]. split; [reflexivity|].
  exact (proj1 (retirement_sequence (B := transport (fails m_stop 0))
                  registry_ab node_a handle_a registry_ab_wf eq_refl)).
Defined.

(** C6, the second part of the claim as first stated fails: with
    [handle_a] registered under the id 1, [update_node] of a node with the
    id 1 and a connection kind that is not in [type_map] leaves no handle
    under the id 1, not one. *)
Lemma replace_with_unknown_kind_leaves_no_handle :
  let B := transport sound in
  let w := run_calls [CallUpdateNode node_a] NodeManager_init in
  Dict.get (_nodes w) (node_id node_a_odd) = Some handle_a /\
  Dict.entries (_nodes (snd (update_node node_a_odd w))) 1 = [] /\
  List.length (Dict.entries (_nodes (snd (update_node node_a_odd w))) 1)
  <> 1%nat.
Proof.
  cbv zeta. repeat split; try reflexivity.
  intro Heq. vm_compute in Heq. discriminate Heq.
Qed.

Lemma one_handle_per_id_witness :
  let B := transport sound in
  let w := run_calls [CallUpdateNode node_a; CallUpdateNode node_b]
             NodeManager_init in
  Dict.get (_nodes w) (node_id node_a) = Some handle_a /\
  escapes handle_a = None /\
  type_map (connection_type node_a) = Some NodeType_rest /\
  Dict.entries (_nodes (snd (update_node node_a w))) (node_id node_a)
  = [(node_id node_a, built w NodeType_rest node_a)] /\
  fst (update_node node_a w) = Ok (built w NodeType_rest node_a) /\
  built w NodeType_rest node_a <> handle_a.
Proof.
  cbv zeta. split; [reflexivity|]. split; [reflexivity|].
  split; [reflexivity|].
  pose proof (proj2 (one_handle_per_id (B := transport sound)
                       [CallUpdateNode node_a; CallUpdateNode node_b] 2)
                node_a handle_a eq_refl) as [Hentries Hnew].
  split; [exact Hentries|].
  exact (Hnew NodeType_rest eq_refl eq_refl).
Defined.

Lemma remove_node_absent_is_noop_witness :
  let B := transport sound in
  ~ In 3%Z (Dict.keys (_nodes registry_ab)) /\
  remove_node 3 registry_ab = (Ok tt, registry_ab).
Proof.
  cbv zeta.
  assert (Habsent : ~ In 3%Z (Dict.keys (_nodes registry_ab))).
  { simpl. intros [H|[H|[]]]; discriminate H. }
  split; [exact Habsent|].
  exact (remove_node_absent_is_noop (B := transport sound)
           registry_ab 3 Habsent).
Defined.

Lemma health_scans_are_exact_witness :
  let B := transport sound in
  (forall n, In n (Dict.values (_nodes registry_ab)) ->
     node_get_health n = Ok HEALTHY) /\
  get_healthy_nodes registry_ab
  = (Ok [(1%Z, handle_a); (2%Z, handle_b)],
     logged registry_ab [EvGetHealth handle_a; EvGetHealth handle_b]) /\
  get_broken_nodes registry_ab
  = (Ok [], logged registry_ab [EvGetHealth handle_a; EvGetHealth handle_b]).
Proof.
  cbv zeta.
  assert (Hall : forall n, In n (Dict.values (_nodes registry_ab)) ->
                   node_get_health (Bridge := transport sound) n = Ok HEALTHY).
  { intros n Hin. reflexivity. }
  split; [exact Hall|].
  pose proof (health_scans_are_exact (B := transport sound)
                registry_ab (fun _ => HEALTHY) Hall) as (H1 & H2 & _).
  split; [exact H1|exact H2].
Defined.

Lemma update_users_serializes_once_witness :
  let B := transport sound in
  (forall n, In n (Dict.values (_nodes registry_ab)) ->
     node_update_users (U := users) n ["alice"; "bob"] = None) /\
  update_users (U := users) ["alice"; "bob"] registry_ab
  = (Ok tt,
     logged registry_ab
       [EvSerializeUsers (U := users) ["alice"; "bob"];
        EvUpdateUsers handle_a ["alice"; "bob"];
        EvUpdateUsers handle_b ["alice"; "bob"]]).
Proof.
  cbv zeta.
  assert (Hall : forall n, In n (Dict.values (_nodes registry_ab)) ->
                   node_update_users (U := users)
                     (Bridge := transport sound) n ["alice"; "bob"] = None).
  { intros n Hin. reflexivity. }
  split; [exact Hall|].
  exact (proj2 (update_users_serializes_once (U := users)
                  (B := transport sound) registry_ab ["alice"; "bob"]) Hall).
Defined.

Lemma remove_user_is_update_user_without_inbounds_witness :
  let B := transport (fails m_update_user 1) in
  inbounds_default = None /\
  remove_user alice registry_ab = update_user alice None registry_ab /\
  remove_user alice registry_ab
  = (Raise (Exception "update_user failed"),
     logged registry_ab
       [EvSerializeUser (U := users) 7 "alice" "vmess" None;
        EvLogInfo "[a] sending update request";
        EvUpdateUser handle_a alice_proto;
        EvLogInfo "[b] sending update request";
        EvUpdateUser handle_b alice_proto]).
Proof.
  cbv zeta. split; [reflexivity|].
  pose proof (remove_user_is_update_user_without_inbounds
                (B := transport (fails m_update_user 1)) alice registry_ab)
    as (_ & Hremove & _ & Hsame).
  split; [exact (Hsame eq_refl)|exact Hremove].
Defined.

End FleetFacts.

(** * More on the registry *)

Lemma Dict_get_setitem_other (d : Dict.t) (k k' : Z) (v : PasarGuardNode) :
  k' <> k -> Dict.get (Dict.setitem d k v) k' = Dict.get d k'.
Proof.
  intro Hne. induction d as [|[k0 v0] rest IH]; simpl.
  - destruct (Z.eqb_spec k k'); [congruence|reflexivity].
  - destruct (Z.eqb_spec k0 k) as [->|Hne0]; simpl.
    + destruct (Z.eqb_spec k k'); [congruence|reflexivity].
    + now rewrite IH.
Qed.

Lemma Dict_remove_length (d : Dict.t) (k : Z) (v : PasarGuardNode) :
  Dict.get d k = Some v ->
  List.length d = Datatypes.S (List.length (Dict.remove d k)).
Proof.
  induction d as [|[k0 v0] rest IH]; simpl; [discriminate|].
  destruct (Z.eqb k0 k); [reflexivity|].
  intro H. simpl. now rewrite (IH H).
Qed.

Lemma Dict_remove_incl (d : Dict.t) (k : Z) (kv : Z * PasarGuardNode) :
  In kv (Dict.remove d k) -> In kv d.
Proof.
  induction d as [|[k0 v0] rest IH]; simpl; [tauto|].
  destruct (Z.eqb k0 k); simpl; intro H; [now right|].
  destruct H as [H|H]; [now left|right; now apply IH].
Qed.

Section RegistryMore.

Context {U : UserSide} {B : Bridge}.

Lemma remove_node_retired (w : World) (id : Z) :
  remove_node id w = (outcome (escaped w id), retired w id).
Proof.
  unfold retired, escaped. destruct (Dict.get (_nodes w) id) as [old|] eqn:Hget.
  - now apply remove_node_present.
  - now apply remove_node_absent.
Qed.

Lemma update_node_nodes (w : World) (node : Node) (c : NodeType) :
  wf_world w ->
  type_map (connection_type node) = Some c ->
  escaped w (node_id node) = None ->
  _nodes (snd (update_node node w))
  = Dict.remove (_nodes w) (node_id node) ++ [(node_id node, built w c node)].
Proof.
  intros Hwf Hkind Hnone. rewrite (update_node_known w node c Hkind Hnone).
  simpl.
  rewrite (Dict_setitem_absent _ _ _ (retired_get w _ (proj1 Hwf))).
  now rewrite retired_nodes.
Qed.

Lemma update_node_snd_nodes (w : World) (node : Node) :
  _nodes (snd (update_node node w))
  = match escaped w (node_id node), type_map (connection_type node) with
    | None, Some c =>
        Dict.setitem (Dict.remove (_nodes w) (node_id node)) (node_id node)
          (built w c node)
    | _, _ => Dict.remove (_nodes w) (node_id node)
    end.
Proof.
  rewrite update_node_run.
  destruct (escaped w (node_id node)) as [e|]; simpl;
    [now rewrite retired_nodes|].
  destruct (type_map (connection_type node)) as [c|]; simpl;
    now rewrite retired_nodes.
Qed.

(** X1.  [remove_node] never raises an instance of [Exception], whatever
    the handles answer and whatever the state.  It raises exactly when
    [set_health] on the handle stored under the id raises an exception that
    is not an instance of [Exception], or [set_health] returns and [stop]
    raises such an exception; it raises that exception then, and returns in
    every other case. *)
Theorem remove_node_raises_what_except_lets_through (w : World) (id : Z) :
  fst (remove_node id w) = outcome (escaped w id) /\
  (forall e,
     fst (remove_node id w) = Raise e ->
     isinstance_Exception e = false /\
     exists old,
       Dict.get (_nodes w) id = Some old /\
       (node_set_health old INVALID = Some e \/
        (node_set_health old INVALID = None /\ node_stop old = Some e))).
Proof.
  rewrite remove_node_retired. simpl. split; [reflexivity|].
  intros e He. unfold escaped in He.
  destruct (Dict.get (_nodes w) id) as [old|]; [|discriminate He].
  unfold escapes, uncaught in He.
  destruct (node_set_health old INVALID) as [e1|] eqn:Hs.
  - destruct (isinstance_Exception e1) eqn:Hinst; [discriminate He|].
    injection He as <-. split; [assumption|]. exists old. split; [reflexivity|].
    now left.
  - destruct (node_stop old) as [e2|] eqn:Hp; [|discriminate He].
    destruct (isinstance_Exception e2) eqn:Hinst; [discriminate He|].
    injection He as <-. split; [assumption|]. exists old. split; [reflexivity|].
    right. now split.
Qed.

(** X2.  A writer called for one id leaves what is stored under every
    other id as it was, whether it returns or raises. *)
Theorem writers_leave_other_ids (w : World) (id id' : Z) :
  id' <> id ->
  Dict.get (_nodes (snd (remove_node id w))) id' = Dict.get (_nodes w) id' /\
  (forall node, node_id node = id ->
     Dict.get (_nodes (snd (update_node node w))) id' = Dict.get (_nodes w) id').
Proof.
  intro Hne. split.
  - rewrite remove_node_retired. simpl. rewrite retired_nodes.
    now apply Dict_get_remove_other.
  - intros node <-. rewrite update_node_snd_nodes.
    destruct (escaped w (node_id node)) as [e|];
      [now apply Dict_get_remove_other|].
    destruct (type_map (connection_type node)) as [c|];
      [|now apply Dict_get_remove_other].
    rewrite (Dict_get_setitem_other _ _ _ _ Hne).
    now apply Dict_get_remove_other.
Qed.

(** X3.  On a state with distinct keys and handles, [update_node] of a node
    of a known kind, whether its id is new or taken, returns a handle that
    was not in the dictionary before, built from the columns of the node,
    and stores it last in the order of the dictionary; [get_node] on the id
    then returns that handle.  The one exception is an old handle whose
    retirement raises what [except Exception] lets through: [update_node]
    then raises it, and [get_node] on the id returns [None]. *)
Theorem update_node_then_get_node (w : World) (node : Node) (c : NodeType) :
  wf_world w ->
  type_map (connection_type node) = Some c ->
  match escaped w (node_id node) with
  | None =>
      exists new w',
        update_node node w = (Ok new, w') /\
        _nodes w'
        = Dict.remove (_nodes w) (node_id node) ++ [(node_id node, new)] /\
        get_node (node_id node) w' = (Ok (Some new), w') /\
        ~ In new (Dict.values (_nodes w)) /\
        connection new = c /\
        address new = node_address node /\
        port new = node_port node /\
        server_ca new = node_server_ca node /\
        api_key new = node_api_key node /\
        name new = node_name node /\
        max_logs new = node_max_logs node /\
        extra_id new = node_id node /\
        extra_usage_coefficient new = usage_coefficient node
  | Some e =>
      exists w',
        update_node node w = (Raise e, w') /\
        _nodes w' = Dict.remove (_nodes w) (node_id node) /\
        get_node (node_id node) w' = (Ok None, w')
  end.
Proof.
  intros Hwf Hkind.
  destruct (escaped w (node_id node)) as [e|] eqn:Hesc.
  - exists (retired w (node_id node)).
    split; [now apply update_node_escaped|].
    split; [now apply retired_nodes|].
    unfold get_node, nodes_get. now rewrite (retired_get w _ (proj1 Hwf)).
  - pose proof (update_node_nodes w node c Hwf Hkind Hesc) as Hnodes.
    destruct (update_node node w) as [r w'] eqn:Hrun.
    pose proof (update_node_known w node c Hkind Hesc) as Hknown.
    cbv zeta in Hknown. rewrite Hrun in Hknown.
    injection Hknown as Hr Hw'. simpl in Hnodes.
    exists (built w c node), w'. split; [now rewrite Hr|].
    split; [assumption|]. split.
    + unfold get_node, nodes_get. rewrite Hnodes.
      rewrite Dict_get_app_last; [reflexivity|].
      apply Dict_get_remove_same, Hwf.
    + split; [|now repeat split].
      destruct Hwf as (_ & _ & Hfresh). rewrite Forall_forall in Hfresh.
      intro Hin. apply Hfresh in Hin. simpl in Hin. lia.
Qed.

(** X4.  On a state with distinct keys, after [remove_node(id)] the id is
    not in the dictionary, and a second [remove_node(id)] changes nothing:
    no call on a handle, no change of the dictionary. *)
Theorem remove_node_twice (w : World) (id : Z) :
  NoDup (Dict.keys (_nodes w)) ->
  let w1 := snd (remove_node id w) in
  get_node id w1 = (Ok None, w1) /\
  remove_node id w1 = (Ok tt, w1).
Proof.
  intros Hnd w1.
  assert (Hgone : Dict.get (_nodes w1) id = None).
  { unfold w1. rewrite remove_node_retired. simpl. now apply retired_get. }
  split.
  - unfold get_node, nodes_get. now rewrite Hgone.
  - now apply remove_node_absent.
Qed.

(** X5.  On a state with distinct keys and handles, [update_node] of a node
    of a known kind followed by [remove_node] of its id leaves the
    dictionary [remove_node] alone would have left. *)
Theorem update_node_then_remove_node (w : World) (node : Node) (c : NodeType) :
  wf_world w ->
  type_map (connection_type node) = Some c ->
  _nodes (snd (remove_node (node_id node) (snd (update_node node w))))
  = _nodes (snd (remove_node (node_id node) w)).
Proof.
  intros Hwf Hkind. rewrite !remove_node_retired. simpl.
  rewrite !retired_nodes, update_node_snd_nodes, Hkind.
  pose proof (Dict_get_remove_same _ (node_id node) (proj1 Hwf)) as Hgone.
  destruct (escaped w (node_id node)) as [e|];
    [now apply Dict_remove_absent|].
  rewrite (Dict_setitem_absent _ _ _ Hgone).
  induction (Dict.remove (_nodes w) (node_id node)) as [|[k0 v0] rest IH];
    simpl in *.
  - now rewrite Z.eqb_refl.
  - destruct (Z.eqb k0 (node_id node)); [discriminate|].
    now rewrite (IH Hgone).
Qed.

(** X6.  The size of the registry, on a state with distinct keys and
    handles: [update_node] of a known kind adds one entry for a new id and
    keeps the size for a taken id; [remove_node] takes one entry away for a
    taken id and none for a new one.  The one exception is a taken id whose
    old handle raises, in its retirement, what [except Exception] lets
    through: [update_node] then leaves one entry less. *)
Theorem registry_size (w : World) (node : Node) (c : NodeType) :
  wf_world w ->
  type_map (connection_type node) = Some c ->
  let id := node_id node in
  let size_after_update := List.length (_nodes (snd (update_node node w))) in
  let size_after_remove := List.length (_nodes (snd (remove_node id w))) in
  match Dict.get (_nodes w) id with
  | Some old =>
      match escapes old with
      | None => size_after_update = List.length (_nodes w)
      | Some _ => Datatypes.S size_after_update = List.length (_nodes w)
      end /\
      Datatypes.S size_after_remove = List.length (_nodes w)
  | None =>
      size_after_update = Datatypes.S (List.length (_nodes w)) /\
      size_after_remove = List.length (_nodes w)
  end.
Proof.
  intros Hwf Hkind. cbv zeta.
  rewrite update_node_snd_nodes, Hkind, remove_node_retired.
  pose proof (Dict_get_remove_same _ (node_id node) (proj1 Hwf)) as Hgone.
  simpl. rewrite retired_nodes. unfold escaped.
  destruct (Dict.get (_nodes w) (node_id node)) as [old|] eqn:Hget.
  - rewrite (Dict_remove_length _ _ _ Hget).
    destruct (escapes old); [split; lia|].
    rewrite (Dict_setitem_absent _ _ _ Hgone), length_app. simpl. split; lia.
  - rewrite (Dict_setitem_absent _ _ _ Hgone), length_app.
    rewrite (Dict_remove_absent _ _ Hget). simpl. split; lia.
Qed.

End RegistryMore.

(** * What every run of the writers keeps *)

Lemma Dict_setitem_incl (d : Dict.t) (k : Z) (v : PasarGuardNode)
    (kv : Z * PasarGuardNode) :
  In kv (Dict.setitem d k v) -> kv = (k, v) \/ In kv d.
Proof.
  induction d as [|[k0 v0] rest IH]; simpl.
  - intros [H|[]]. now left.
  - destruct (Z.eqb_spec k0 k) as [->|Hne]; simpl; intros [H|H].
    + left. now symmetry.
    + right. now right.
    + right. now left.
    + destruct (IH H) as [H1|H1]; [now left|right; now right].
Qed.

Section Runs.

Context {U : UserSide} {B : Bridge}.

Lemma count_events_app (f : event -> bool) (tr tr' : list event) :
  count_events f (tr ++ tr') = (count_events f tr + count_events f tr')%nat.
Proof. unfold count_events. now rewrite filter_app, length_app. Qed.

Lemma retirement_counts (old : PasarGuardNode) (id : Z) :
  count_events is_create (retirement old id) = 0%nat /\
  count_events is_delitem (retirement old id) = 1%nat /\
  count_events is_invalidate (retirement old id) = 1%nat /\
  (count_events is_stop (retirement old id) <= 1)%nat.
Proof.
  unfold retirement. destruct (node_set_health old INVALID); simpl;
    unfold count_events; simpl; repeat split; lia.
Qed.

Lemma retired_balanced (w : World) (id : Z) :
  balanced w -> balanced (retired w id).
Proof.
  intros (Hc & Hi & Hs). unfold retired.
  destruct (Dict.get (_nodes w) id) as [old|] eqn:Hget; [|now repeat split].
  destruct (retirement_counts old id) as (Rc & Rd & Ri & Rs).
  unfold balanced. simpl. rewrite !count_events_app.
  rewrite (Dict_remove_length _ _ _ Hget) in Hc.
  repeat split; lia.
Qed.

Lemma retired_keyed (w : World) (id : Z) :
  keyed_by_extra_id (_nodes w) -> keyed_by_extra_id (_nodes (retired w id)).
Proof.
  intros Hk id0 n Hin. rewrite retired_nodes in Hin.
  apply Hk. now apply Dict_remove_incl in Hin.
Qed.

Lemma kept_init : kept NodeManager_init.
Proof.
  split; [apply NodeManager_init_wf|]. split.
  - unfold balanced, count_events. simpl. repeat split; lia.
  - intros id n [].
Qed.

Lemma kept_step (w : World) (c : writer_call) : kept w -> kept (run_call w c).
Proof.
  intros (Hwf & Hbal & Hkey). destruct c as [node|id]; simpl.
  - split; [now apply update_node_wf|].
    pose proof (retired_balanced w (node_id node) Hbal) as (Hc & Hi & Hs).
    pose proof (retired_keyed w (node_id node) Hkey) as Hk.
    pose proof (retired_get w (node_id node) (proj1 Hwf)) as Hgone.
    rewrite update_node_run.
    destruct (escaped w (node_id node)) as [e|];
      [split; [now repeat split|assumption]|].
    destruct (type_map (connection_type node)) as [k|] eqn:Hkind;
      [|split; [now repeat split|assumption]].
    simpl. split.
    + unfold balanced. simpl. rewrite !count_events_app.
      rewrite (Dict_setitem_absent _ _ _ Hgone), length_app.
      unfold count_events at 2 4 6 8 10 12. simpl.
      repeat split; lia.
    + intros id0 n Hin. apply Dict_setitem_incl in Hin as [Heq|Hin].
      * injection Heq as -> ->. reflexivity.
      * now apply Hk.
  - rewrite remove_node_retired. simpl.
    split; [now apply retired_wf|].
    split; [now apply retired_balanced|now apply retired_keyed].
Qed.

Lemma kept_run (cs : list writer_call) (w : World) :
  kept w -> kept (run_calls cs w).
Proof.
  revert w. induction cs as [|c cs IH]; intros w Hk; simpl; [assumption|].
  now apply IH, kept_step.
Qed.

(** X7.  After any run of [update_node] and [remove_node] calls on a new
    manager, every handle of the dictionary carries in [extra] the id it is
    stored under. *)
Theorem handles_are_keyed_by_their_extra_id (cs : list writer_call) :
  forall id n,
    In (id, n) (_nodes (run_calls cs NodeManager_init)) -> extra_id n = id.
Proof.
  intros id n Hin.
  destruct (kept_run cs NodeManager_init kept_init) as (_ & _ & Hkey).
  now apply Hkey.
Qed.

(** X8.  After any run of [update_node] and [remove_node] calls on a new
    manager, no handle object is stored under two ids, and every handle of
    the dictionary is older than the next object the runtime hands out, so
    that the next [update_node] cannot return one of them. *)
Theorem handles_are_distinct_objects (cs : list writer_call) :
  let w := run_calls cs NodeManager_init in
  NoDup (map ref (Dict.values (_nodes w))) /\
  (forall id id' n,
     In (id, n) (_nodes w) -> In (id', n) (_nodes w) -> id = id') /\
  (forall n, In n (Dict.values (_nodes w)) -> (ref n < next_ref w)%nat).
Proof.
  intro w.
  destruct (kept_run cs NodeManager_init kept_init)
    as ((Hnd & Hrefs & Hfresh) & _ & Hkey).
  fold w in Hnd, Hrefs, Hfresh, Hkey.
  split; [assumption|]. split.
  - intros id id' n Hin Hin'.
    rewrite <- (Hkey id n Hin). now apply Hkey.
  - now apply Forall_forall.
Qed.

(** X9.  The books of every run of [update_node] and [remove_node] calls on
    a new manager, whatever the handles answer: the handles created are as
    many as those in the dictionary and the keys deleted together; every
    deletion of a key came with one [set_health(INVALID)]; and [stop] was
    requested at most once per deletion. *)
Theorem every_handle_is_registered_or_retired (cs : list writer_call) :
  let w := run_calls cs NodeManager_init in
  count_events is_create (trace w)
  = (List.length (_nodes w) + count_events is_delitem (trace w))%nat /\
  count_events is_invalidate (trace w) = count_events is_delitem (trace w) /\
  (count_events is_stop (trace w) <= count_events is_delitem (trace w))%nat.
Proof.
  intro w.
  destruct (kept_run cs NodeManager_init kept_init) as (_ & Hbal & _).
  exact Hbal.
Qed.

End Runs.

(** * More on the scans and the broadcasts *)

Section ReadersMore.

Context {U : UserSide} {B : Bridge}.

Lemma for_each_logged {A : Type} (body : A -> M unit) (xs : list A) :
  (forall x w, exists evs, snd (body x w) = logged w evs) ->
  forall w, exists evs, snd (for_each xs body w) = logged w evs.
Proof.
  intro Hbody. induction xs as [|x xs IH]; intro w; simpl.
  - exists []. now rewrite logged_nil.
  - unfold bind. destruct (Hbody x w) as [evs Hevs].
    destruct (body x w) as [[[]|e] w1]; simpl in Hevs; subst w1.
    + destruct (IH (logged w evs)) as [evs' Hevs'].
      exists (evs ++ evs'). now rewrite Hevs', logged_logged.
    + now exists evs.
Qed.

Lemma comprehension_logged (h : Health) (items : list (Z * PasarGuardNode)) :
  forall w, exists evs, snd (comprehension h items w) = logged w evs.
Proof.
  induction items as [|[id n] rest IH]; intro w; simpl.
  - exists []. now rewrite logged_nil.
  - unfold bind at 1. rewrite get_health_run.
    destruct (node_get_health n) as [got|e]; [|now eexists].
    unfold bind at 1.
    destruct (IH (logged w [EvGetHealth n])) as [evs Hevs].
    destruct (comprehension h rest (logged w [EvGetHealth n])) as [[tl|e] w1];
      simpl in Hevs; subst w1; exists ([EvGetHealth n] ++ evs);
      now rewrite logged_logged.
Qed.

Lemma scan_logged (h : Health) (w : World) :
  exists evs,
    snd (bind nodes_items
           (fun items => bind (comprehension h items) (fun nodes => ret nodes)) w)
    = logged w evs.
Proof.
  unfold bind at 1. unfold nodes_items. unfold bind.
  destruct (comprehension_logged h (Dict.items (_nodes w)) w) as [evs Hevs].
  destruct (comprehension h (Dict.items (_nodes w)) w) as [[tl|e] w1];
    simpl in Hevs; subst w1; now exists evs.
Qed.

Lemma _update_user_logged (p : ProtoUser) (w : World) :
  exists evs, snd (_update_user p w) = logged w evs.
Proof.
  unfold _update_user, nodes_values. unfold bind at 1.
  apply for_each_logged. intros n w0. rewrite single_round_run. now eexists.
Qed.

(** The dictionary and the object counter, which the readers leave alone. *)
Lemma logged_same (w w' : World) :
  (exists evs, w' = logged w evs) ->
  _nodes w' = _nodes w /\ next_ref w' = next_ref w.
Proof. intros [evs ->]. now split. Qed.

(** X10.  No reader changes the registry, whatever the handles answer and
    whether the call returns or raises: after [get_node], [get_nodes], the
    three scans and the four broadcast methods the dictionary is the one
    before the call, and no handle has been created. *)
Theorem readers_keep_the_registry (w : World) :
  let same (w' : World) :=
    _nodes w' = _nodes w /\ next_ref w' = next_ref w in
  (forall id, same (snd (get_node id w))) /\
  same (snd (get_nodes w)) /\
  same (snd (get_healthy_nodes w)) /\
  same (snd (get_broken_nodes w)) /\
  same (snd (get_not_connected_nodes w)) /\
  (forall users, same (snd (update_users users w))) /\
  (forall p, same (snd (_update_user p w))) /\
  (forall user inbounds, same (snd (update_user user inbounds w))) /\
  (forall user, same (snd (remove_user user w))).
Proof.
  cbv zeta.
  split; [intro id; now split|].
  split; [now split|].
  split; [apply logged_same, (scan_logged HEALTHY)|].
  split; [apply logged_same, (scan_logged BROKEN)|].
  split; [apply logged_same, (scan_logged NOT_CONNECTED)|].
  split; [|split; [|split]].
  - intro users. rewrite update_users_run.
    destruct (for_each_logged
                (fun n => handle_update_users n (serialize_users_for_node users))
                (Dict.values (_nodes w))
                (fun n w0 => ex_intro _ _
                   (f_equal snd (handle_update_users_run n _ w0)))
                (logged w [EvSerializeUsers users])) as [evs Hevs].
    rewrite Hevs. now split.
  - intro p. apply logged_same, _update_user_logged.
  - intros user inbounds. unfold update_user. rewrite serialize_then.
    destruct (_update_user_logged
                (serialize_user_for_node (user_id user) (username user)
                   (proxy_settings_dict (proxy_settings user)) inbounds)
                (logged w [EvSerializeUser (user_id user) (username user)
                             (proxy_settings_dict (proxy_settings user))
                             inbounds])) as [evs Hevs].
    rewrite Hevs. now split.
  - intro user. unfold remove_user. rewrite serialize_then.
    destruct (_update_user_logged
                (serialize_user_for_node (user_id user) (username user)
                   (proxy_settings_dict (proxy_settings user)) inbounds_default)
                (logged w [EvSerializeUser (user_id user) (username user)
                             (proxy_settings_dict (proxy_settings user))
                             inbounds_default])) as [evs Hevs].
    rewrite Hevs. now split.
Qed.

(** X12.  When [update_user] returns on every handle of the dictionary, the
    single-user broadcasts return: [update_user] and [remove_user] call the
    serializer once and then, for each handle in the order of the
    dictionary, log the line with the handle's name and call [update_user]
    on it with the serialized user; on an empty dictionary the serializer
    call is all they do. *)
Theorem single_user_broadcast_reaches_every_handle
    (w : World) (user : UserResponse) (inbounds : option (list string)) :
  let settings := proxy_settings_dict (proxy_settings user) in
  let sent i := serialize_user_for_node (user_id user) (username user)
                  settings i in
  let serialized i := EvSerializeUser (user_id user) (username user)
                        settings i in
  ((forall n, In n (Dict.values (_nodes w)) ->
      node_update_user n (sent inbounds) = None) ->
   update_user user inbounds w
   = (Ok tt,
      logged w (serialized inbounds
                :: flat_map (single_round (sent inbounds))
                     (Dict.values (_nodes w)))))
  /\
  ((forall n, In n (Dict.values (_nodes w)) ->
      node_update_user n (sent inbounds_default) = None) ->
   remove_user user w
   = (Ok tt,
      logged w (serialized inbounds_default
                :: flat_map (single_round (sent inbounds_default))
                     (Dict.values (_nodes w)))))
  /\
  (_nodes w = [] ->
   update_user user inbounds w = (Ok tt, logged w [serialized inbounds]) /\
   remove_user user w = (Ok tt, logged w [serialized inbounds_default])).
Proof.
  cbv zeta.
  assert (Hrun : forall i,
    (forall n, In n (Dict.values (_nodes w)) ->
       node_update_user n
         (serialize_user_for_node (user_id user) (username user)
            (proxy_settings_dict (proxy_settings user)) i) = None) ->
    bind (call_serialize_user_for_node (user_id user) (username user)
            (proxy_settings_dict (proxy_settings user)) i) _update_user w
    = (Ok tt,
       logged w
         (EvSerializeUser (user_id user) (username user)
            (proxy_settings_dict (proxy_settings user)) i
          :: flat_map
               (single_round
                  (serialize_user_for_node (user_id user) (username user)
                     (proxy_settings_dict (proxy_settings user)) i))
               (Dict.values (_nodes w))))).
  { intros i Hall. rewrite serialize_then.
    unfold _update_user, nodes_values. unfold bind at 1. simpl.
    rewrite (for_each_all_return _
               (fun n => node_update_user n
                  (serialize_user_for_node (user_id user) (username user)
                     (proxy_settings_dict (proxy_settings user)) i))
               (single_round
                  (serialize_user_for_node (user_id user) (username user)
                     (proxy_settings_dict (proxy_settings user)) i)));
      try assumption.
    - now rewrite logged_logged.
    - intros n w0. apply single_round_run. }
  split; [exact (Hrun inbounds)|]. split; [exact (Hrun inbounds_default)|].
  intro Hempty. split.
  - unfold update_user. rewrite Hrun; [now rewrite Hempty|].
    rewrite Hempty. intros n [].
  - unfold remove_user. rewrite Hrun; [now rewrite Hempty|].
    rewrite Hempty. intros n [].
Qed.

End ReadersMore.

(** * The database session *)

Section SessionFacts.

Context {S : Db.Sessions}.

Lemma get_db_log (r : Db.resume) (st : Db.State) :
  let s := Db.mkSession (Db.next_session st) in
  snd (Db.get_db r st)
  = Db.mkState (Datatypes.S (Db.next_session st))
      (Db.log st ++ Db.EvSessionLocal s :: Db.leaving s r).
Proof.
  cbv zeta.
  unfold Db.get_db, Db.get_db_first, Db.GetDB_init, Db.GetDB_aenter,
    Db.SessionLocal, Db.get_db_resume, Db.GetDB_aexit, Db.rollback, Db.close,
    Db.bind, Db.emit, Db.of_outcome, Db.ret, Db.raise, Db.leaving.
  destruct r as [|e]; simpl.
  - destruct (Db.session_close _); simpl; now rewrite <- app_assoc.
  - destruct (Db.is_SQLAlchemyError e); simpl.
    + destruct (Db.session_rollback _); simpl;
        [now rewrite <- app_assoc|].
      destruct (Db.session_close _); simpl; now rewrite <- !app_assoc.
    + destruct (Db.session_close _); simpl; now rewrite <- app_assoc.
Qed.

Lemma get_db_throw (e : Db.exc) (st : Db.State) :
  fst (Db.get_db (Db.Throw e) st)
  = if Db.is_SQLAlchemyError e then
      match Db.session_rollback (Db.mkSession (Db.next_session st)) with
      | Some e' => Db.Raised e'
      | None =>
          match Db.session_close (Db.mkSession (Db.next_session st)) with
          | Some e' => Db.Raised e'
          | None => Db.Raised e
          end
      end
    else
      match Db.session_close (Db.mkSession (Db.next_session st)) with
      | Some e' => Db.Raised e'
      | None => Db.Raised e
      end.
Proof.
  unfold Db.get_db, Db.get_db_first, Db.GetDB_init, Db.GetDB_aenter,
    Db.SessionLocal, Db.get_db_resume, Db.GetDB_aexit, Db.rollback, Db.close,
    Db.bind, Db.emit, Db.of_outcome, Db.ret, Db.raise.
  simpl. destruct (Db.is_SQLAlchemyError e); simpl.
  - destruct (Db.session_rollback _); simpl; [reflexivity|].
    now destruct (Db.session_close _).
  - now destruct (Db.session_close _).
Qed.

(** X13.  What a caller of [get_db] gets.  Resumed with a value, the
    generator ends with the session it has yielded, a new one, unless
    [close] raises, and then with what [close] raised.  Resumed with an
    exception thrown in, it never ends without an exception: it raises the
    exception thrown in, unless the rollback or the close raises, and then
    what that call raised. *)
Theorem get_db_outcome (st : Db.State) :
  let s := Db.mkSession (Db.next_session st) in
  let after_close (otherwise : Db.outcome Db.AsyncSession) :=
    match Db.session_close s with
    | Some e' => Db.Raised e'
    | None => otherwise
    end in
  fst (Db.get_db Db.Send st) = after_close (Db.Returned s) /\
  (forall e,
     fst (Db.get_db (Db.Throw e) st)
     = if Db.is_SQLAlchemyError e then
         match Db.session_rollback s with
         | Some e' => Db.Raised e'
         | None => after_close (Db.Raised e)
         end
       else after_close (Db.Raised e)) /\
  (forall e a, fst (Db.get_db (Db.Throw e) st) <> Db.Returned a).
Proof.
  cbv zeta. split; [|split].
  - unfold Db.get_db, Db.get_db_first, Db.GetDB_init, Db.GetDB_aenter,
      Db.SessionLocal, Db.get_db_resume, Db.GetDB_aexit, Db.rollback,
      Db.close, Db.bind, Db.emit, Db.of_outcome, Db.ret, Db.raise.
    simpl. now destruct (Db.session_close _).
  - intro e. now rewrite get_db_throw.
  - intros e a. rewrite get_db_throw.
    destruct (Db.is_SQLAlchemyError e);
      [destruct (Db.session_rollback _); [discriminate|]|];
      destruct (Db.session_close _); discriminate.
Qed.

(** X14.  [get_db] calls [rollback] on the session exactly when an
    [SQLAlchemyError] is thrown in at its [yield], and then once and before
    any [close]; resumed with a value or with another exception it never
    rolls back. *)
Theorem get_db_rolls_back_on_SQLAlchemyError_only
    (r : Db.resume) (st : Db.State) :
  let s := Db.mkSession (Db.next_session st) in
  exists evs,
    Db.log (snd (Db.get_db r st)) = Db.log st ++ Db.EvSessionLocal s :: evs /\
    Db.rollbacks evs
    = match r with
      | Db.Throw e => if Db.is_SQLAlchemyError e then 1%nat else 0%nat
      | Db.Send => 0%nat
      end /\
    (Db.rollbacks evs = 1%nat -> exists rest, evs = Db.EvRollback s :: rest).
Proof.
  cbv zeta. exists (Db.leaving (Db.mkSession (Db.next_session st)) r).
  split; [now rewrite get_db_log|].
  unfold Db.leaving, Db.rollbacks.
  destruct r as [|e]; simpl.
  - split; [reflexivity|discriminate].
  - destruct (Db.is_SQLAlchemyError e); simpl.
    + destruct (Db.session_rollback _); simpl;
        (split; [reflexivity|intros _; eexists; reflexivity]).
    + split; [reflexivity|discriminate].
Qed.

(** X15.  [get_db] closes the session it has created once, as the last
    thing it does, in every case but one: when the rollback raises, the
    session is never closed. *)
Theorem get_db_closes_unless_rollback_raises (r : Db.resume) (st : Db.State) :
  let s := Db.mkSession (Db.next_session st) in
  exists evs,
    Db.log (snd (Db.get_db r st)) = Db.log st ++ Db.EvSessionLocal s :: evs /\
    (Db.rollback_raises s r = false ->
     Db.closes evs = 1%nat /\ exists before, evs = before ++ [Db.EvClose s]) /\
    (Db.rollback_raises s r = true -> Db.closes evs = 0%nat).
Proof.
  cbv zeta. exists (Db.leaving (Db.mkSession (Db.next_session st)) r).
  split; [now rewrite get_db_log|].
  unfold Db.leaving, Db.closes, Db.rollback_raises.
  destruct r as [|e]; simpl.
  - split; [|discriminate]. intros _. split; [reflexivity|]. now exists [].
  - destruct (Db.is_SQLAlchemyError e); simpl.
    + destruct (Db.session_rollback _); simpl.
      * split; [discriminate|reflexivity].
      * split; [|discriminate]. intros _. split; [reflexivity|].
        now exists [Db.EvRollback (Db.mkSession (Db.next_session st))].
    + split; [|discriminate]. intros _. split; [reflexivity|]. now exists [].
Qed.

End SessionFacts.


(** * The further statements on the concrete fleet and on concrete sessions *)

Module FleetMore.

Import Fleet.

#[local] Existing Instance users.

Lemma remove_node_raises_what_except_lets_through_witness :
  let B := cancelled_stop 0 in
  fst (remove_node 1 registry_ab) = Raise (BaseException "CancelledError") /\
  isinstance_Exception (BaseException "CancelledError") = false /\
  exists old,
    Dict.get (_nodes registry_ab) 1 = Some old /\
    (node_set_health old INVALID = Some (BaseException "CancelledError") \/
     (node_set_health old INVALID = None /\
      node_stop old = Some (BaseException "CancelledError"))).
Proof.
  cbv zeta.
  assert (Hraise : fst (remove_node (B := cancelled_stop 0) 1 registry_ab)
                   = Raise (BaseException "CancelledError")) by reflexivity.
  split; [exact Hraise|].
  exact (proj2 (remove_node_raises_what_except_lets_through
                  (B := cancelled_stop 0) registry_ab 1)
           (BaseException "CancelledError") Hraise).
Defined.

Lemma writers_leave_other_ids_witness :
  let B := transport (fails m_stop 0) in
  2%Z <> 1%Z /\
  Dict.get (_nodes (snd (remove_node 1 registry_ab))) 2
  = Dict.get (_nodes registry_ab) 2 /\
  Dict.get (_nodes (snd (update_node node_a_odd registry_ab))) 2
  = Dict.get (_nodes registry_ab) 2.
Proof.
  cbv zeta.
  assert (Hne : 2%Z <> 1%Z) by discriminate.
  split; [exact Hne|]. split.
  - exact (proj1 (writers_leave_other_ids (B := transport (fails m_stop 0))
                    registry_ab 1 2 Hne)).
  - exact (proj2 (writers_leave_other_ids (B := transport (fails m_stop 0))
                    registry_ab 1 2 Hne) node_a_odd eq_refl).
Defined.

Lemma update_node_then_get_node_witness :
  let B := transport sound in
  wf_world registry_ab /\
  type_map (connection_type node_a) = Some NodeType_rest /\
  exists new w',
    update_node node_a registry_ab = (Ok new, w') /\
    _nodes w' = [(2%Z, handle_b); (1%Z, new)] /\
    get_node 1 w' = (Ok (Some new), w') /\
    ~ In new [handle_a; handle_b].
Proof.
  cbv zeta. split; [exact FleetFacts.registry_ab_wf|]. split; [reflexivity|].
  destruct (update_node_then_get_node (B := transport sound)
              registry_ab node_a NodeType_rest FleetFacts.registry_ab_wf
              eq_refl)
    as (new & w' & Hrun & Hnodes & Hget & Hnew & _).
  exists new, w'. repeat split; assumption.
Defined.

Lemma remove_node_twice_witness :
  let B := transport (fails m_set_health 0) in
  let w1 := snd (remove_node 1 registry_ab) in
  NoDup (Dict.keys (_nodes registry_ab)) /\
  get_node 1 w1 = (Ok None, w1) /\
  remove_node 1 w1 = (Ok tt, w1).
Proof.
  cbv zeta. split; [exact (proj1 FleetFacts.registry_ab_wf)|].
  exact (remove_node_twice (B := transport (fails m_set_health 0))
           registry_ab 1 (proj1 FleetFacts.registry_ab_wf)).
Defined.

Lemma update_node_then_remove_node_witness :
  let B := transport sound in
  wf_world registry_ab /\
  type_map (connection_type node_a) = Some NodeType_rest /\
  _nodes (snd (remove_node 1 (snd (update_node node_a registry_ab))))
  = _nodes (snd (remove_node 1 registry_ab)).
Proof.
  cbv zeta. split; [exact FleetFacts.registry_ab_wf|]. split; [reflexivity|].
  exact (update_node_then_remove_node (B := transport sound)
           registry_ab node_a NodeType_rest FleetFacts.registry_ab_wf eq_refl).
Defined.

Lemma registry_size_witness :
  let B := transport sound in
  wf_world registry_ab /\
  type_map (connection_type node_a) = Some NodeType_rest /\
  List.length (_nodes (snd (update_node node_a registry_ab))) = 2%nat /\
  Datatypes.S (List.length (_nodes (snd (remove_node 1 registry_ab)))) = 2%nat.
Proof.
  cbv zeta. split; [exact FleetFacts.registry_ab_wf|]. split; [reflexivity|].
  exact (registry_size (B := transport sound)
           registry_ab node_a NodeType_rest FleetFacts.registry_ab_wf eq_refl).
Defined.

Lemma handles_are_keyed_by_their_extra_id_witness :
  let B := transport sound in
  In (2%Z, handle_b)
    (_nodes (run_calls [CallUpdateNode node_a; CallUpdateNode node_b]
               NodeManager_init)) /\
  extra_id handle_b = 2%Z.
Proof.
  cbv zeta.
  assert (Hin : In (2%Z, handle_b)
                  (_nodes (run_calls (B := transport sound)
                             [CallUpdateNode node_a; CallUpdateNode node_b]
                             NodeManager_init))).
  { right. left. reflexivity. }
  split; [exact Hin|].
  exact (handles_are_keyed_by_their_extra_id (B := transport sound)
           [CallUpdateNode node_a; CallUpdateNode node_b] 2 handle_b Hin).
Defined.

Lemma handles_are_distinct_objects_witness :
  let B := transport sound in
  let w := run_calls [CallUpdateNode node_a; CallUpdateNode node_b]
             NodeManager_init in
  In handle_b (Dict.values (_nodes w)) /\
  (ref handle_b < next_ref w)%nat.
Proof.
  cbv zeta.
  assert (Hin : In handle_b
                  (Dict.values
                     (_nodes (run_calls (B := transport sound)
                                [CallUpdateNode node_a; CallUpdateNode node_b]
                                NodeManager_init)))).
  { right. left. reflexivity. }
  split; [exact Hin|].
  exact (proj2 (proj2 (handles_are_distinct_objects (B := transport sound)
                         [CallUpdateNode node_a; CallUpdateNode node_b]))
           handle_b Hin).
Defined.

Lemma single_user_broadcast_reaches_every_handle_witness :
  let B := transport sound in
  (forall n, In n (Dict.values (_nodes registry_ab)) ->
     node_update_user n alice_proto = None) /\
  update_user alice None registry_ab
  = (Ok tt,
     logged registry_ab
       [EvSerializeUser (U := users) 7 "alice" "vmess" None;
        EvLogInfo "[a] sending update request";
        EvUpdateUser handle_a alice_proto;
        EvLogInfo "[b] sending update request";
        EvUpdateUser handle_b alice_proto]).
Proof.
  cbv zeta.
  assert (Hall : forall n, In n (Dict.values (_nodes registry_ab)) ->
                   node_update_user (Bridge := transport sound) n alice_proto
                   = None).
  { intros n Hin. reflexivity. }
  split; [exact Hall|].
  exact (proj1 (single_user_broadcast_reaches_every_handle
                  (B := transport sound) registry_ab alice None) Hall).
Defined.

End FleetMore.

Module DbFacts.

Lemma get_db_outcome_witness :
  let S := Db.sessions false false in
  fst (Db.get_db (Db.Throw Db.value_error) Db.new_state)
  = Db.Raised Db.value_error.
Proof.
  cbv zeta.
  exact (proj1 (proj2 (get_db_outcome (S := Db.sessions false false)
                         Db.new_state)) Db.value_error).
Defined.

Lemma get_db_rolls_back_on_SQLAlchemyError_only_witness :
  let S := Db.sessions false false in
  exists evs,
    Db.log (snd (Db.get_db (Db.Throw Db.integrity_error) Db.new_state))
    = Db.EvSessionLocal (Db.mkSession 0) :: evs /\
    Db.rollbacks evs = 1%nat /\
    exists rest, evs = Db.EvRollback (Db.mkSession 0) :: rest.
Proof.
  cbv zeta.
  destruct (get_db_rolls_back_on_SQLAlchemyError_only
              (S := Db.sessions false false)
              (Db.Throw Db.integrity_error) Db.new_state)
    as (evs & Hlog & Hcount & Hfirst).
  exists evs. split; [exact Hlog|]. split; [exact Hcount|].
  exact (Hfirst Hcount).
Defined.

Lemma get_db_closes_unless_rollback_raises_witness :
  (let S := Db.sessions true false in
   Db.rollback_raises (Db.mkSession 0) (Db.Throw Db.integrity_error) = true /\
   exists evs,
     Db.log (snd (Db.get_db (Db.Throw Db.integrity_error) Db.new_state))
     = Db.EvSessionLocal (Db.mkSession 0) :: evs /\
     Db.closes evs = 0%nat) /\
  (let S := Db.sessions false false in
   Db.rollback_raises (Db.mkSession 0) (Db.Throw Db.integrity_error) = false /\
   exists evs,
     Db.log (snd (Db.get_db (Db.Throw Db.integrity_error) Db.new_state))
     = Db.EvSessionLocal (Db.mkSession 0) :: evs /\
     Db.closes evs = 1%nat).
Proof.
  cbv zeta. split; (split; [reflexivity|]).
  - destruct (get_db_closes_unless_rollback_raises
                (S := Db.sessions true false)
                (Db.Throw Db.integrity_error) Db.new_state)
      as (evs & Hlog & _ & Hnone).
    exists evs. split; [exact Hlog|exact (Hnone eq_refl)].
  - destruct (get_db_closes_unless_rollback_raises
                (S := Db.sessions false false)
                (Db.Throw Db.integrity_error) Db.new_state)
      as (evs & Hlog & Hone & _).
    exists evs. split; [exact Hlog|exact (proj1 (Hone eq_refl))].
Defined.

End DbFacts.
